(** * cisco_audit.py: a threaded inventory audit of network devices

    A shallow embedding of [src/cisco_audit.py].  The file has three layers:

    - the data the script handles (TextFSM records, CSV rows, the command
      table [COMMAND_MAP], the [csv.DictWriter] with [restval='N/A']);
    - one iteration of [device_worker]'s loop body as a program in a small
      event-logging exception monad (the session provider, netmiko, is a
      parameter);
    - the worker pool of [main] as an interleaving step function over a
      shared queue, a shared lock-protected sink and per-thread program
      points.

    What lies outside the script is taken as follows.  A command sent with
    [use_textfsm=True] returns a list of records, each a dict from field
    name to text, or raises; leaving the [with] block disconnects without
    raising; writing to the open CSV file does not fail; logging has no
    effect on the result. *)

From Stdlib Require Import Ascii.
From stdpp Require Import gmap strings list fin_maps.

Local Open Scope string_scope.
Local Open Scope list_scope.

(** ** Python values that occur in the script *)

(** A parsed TextFSM record: a dict from field name to text. *)
Abbreviation record := (gmap string string).

(** A row handed to the CSV writer: a dict whose values are text or [None]
    ([dict.get] without a default returns [None] for a missing key). *)
Abbreviation row := (gmap string (option string)).

(** The exceptions the loop body distinguishes.  [KeyError] and
    [ValueError] are the ones the script itself can raise (a subscript on a
    dict, a row with a column that is not a field name); [OtherException]
    stands for any further [Exception] of the session provider, with its
    [str()]. *)
Inductive exn : Type :=
| NetmikoAuthenticationException (msg : string)
| NetmikoTimeoutException (msg : string)
| KeyError (key : string)
| ValueError (msg : string)
| OtherException (msg : string).

(** [str(e)] as used by the f-string [f'Error: {e}']: the message of the
    exception; for a [KeyError] the [repr] of the key. *)
Definition exn_str (e : exn) : string :=
  match e with
  | NetmikoAuthenticationException m => m
  | NetmikoTimeoutException m => m
  | KeyError k => "'" +:+ k +:+ "'"
  | ValueError m => m
  | OtherException m => m
  end.

(** ** Configuration *)

Definition NUM_THREADS : nat := 10.

Definition COMMAND_MAP : gmap string (gmap string string) :=
  {[ "cisco_ios" :=
       {[ "version" := "show version";
          "interfaces" := "show ip interface brief";
          "cdp" := "show cdp neighbors detail" ]};
     "cisco_nxos" :=
       {[ "version" := "show version";
          "interfaces" := "show ip interface brief";
          "cdp" := "show cdp neighbors detail" ]};
     "cisco_asa" :=
       {[ "version" := "show version";
          "interfaces" := "show interface ip brief" ]} ]}.

(** The column header of [main]. *)
Definition fieldnames : list string :=
  [ "hostname"; "ip_address"; "model"; "version"; "status"; "interface";
    "interface_ip"; "interface_status"; "protocol_status"; "neighbor_device";
    "neighbor_platform"; "neighbor_interface" ].

Definition restval : string := "N/A".

(** ** [csv.DictWriter] *)

(** [DictWriter._dict_to_list] with the default [extrasaction='raise']:
    a key outside [fieldnames] is a [ValueError]; otherwise the cells are
    [rowdict.get(key, restval)] in header order. *)
Definition wrong_fields (r : row) : list string :=
  filter (λ k, k ∉ fieldnames) (map fst (map_to_list r)).

Definition dict_to_list (r : row) : list (option string) :=
  map (λ k, default (Some restval) (r !! k)) fieldnames.

(** The csv writer renders [None] as the empty string. *)
Definition cell_text (v : option string) : string := default EmptyString v.

Definition csv_cells (r : row) : list string := map cell_text (dict_to_list r).

(** ** The session provider *)

(** The keyword arguments the script passes to [ConnectHandler]. *)
Record base_device : Type := BaseDevice {
  device_type : string;
  host : string;
  username : string;
  password : string;
  secret : string;
  timeout : nat
}.

(** What a device does when the script talks to it: the result of opening
    the session (the detected [device_type], or an exception), the parsed
    answer to each command, and the prompt. *)
Record session : Type := Session {
  connect : exn + string;
  send_command : string → exn + list record;
  find_prompt : exn + string
}.

(** ** Effects of one loop iteration *)

(** What the loop body does to the world, in order. *)
Inductive event : Type :=
| EvConnect (d : base_device)
| EvSend (cmd : string)
| EvPrompt
| EvDisconnect
| EvRow (r : row)
| EvTaskDone
| EvPbar.

(** A computation appends to the event log and either returns or raises. *)
Definition M (A : Type) : Type := list event → (exn + A) * list event.

Definition ret {A} (a : A) : M A := λ log, (inr a, log).
Definition raise {A} (e : exn) : M A := λ log, (inl e, log).
Definition bind {A B} (m : M A) (k : A → M B) : M B :=
  λ log, match m log with
         | (inr a, log') => k a log'
         | (inl e, log') => (inl e, log')
         end.
Definition emit (ev : event) : M unit := λ log, (inr tt, log ++ [ev]).
Definition lift {A} (x : exn + A) : M A :=
  match x with inl e => raise e | inr a => ret a end.

(** [try: body except Exception as e: handler(e)] *)
Definition try_except {A} (body : M A) (handler : exn → M A) : M A :=
  λ log, match body log with
         | (inr a, log') => (inr a, log')
         | (inl e, log') => handler e log'
         end.

(** [try: body finally: fin] *)
Definition try_finally {A} (body : M A) (fin : M unit) : M A :=
  λ log, match body log with
         | (res, log') =>
             match fin log' with
             | (inr _, log'') => (res, log'')
             | (inl e, log'') => (inl e, log'')
             end
         end.

Declare Scope audit_scope.
Delimit Scope audit_scope with audit.
Notation "'let*' x := m 'in' k" := (bind m (λ x, k))
  (at level 10, x name, m at level 100, k at level 200) : audit_scope.
Notation "m >>> k" := (bind m (λ _, k))
  (at level 100, k at level 200, right associativity) : audit_scope.
Local Open Scope audit_scope.

(** [for x in xs: body x] *)
Fixpoint for_each {A} (xs : list A) (body : A → M unit) : M unit :=
  match xs with
  | [] => ret tt
  | x :: xs' => body x >>> for_each xs' body
  end.

(** [ThreadSafeDictWriter.writerow] as seen by the calling thread (the lock
    is modelled with the worker pool below). *)
Definition writerow (r : row) : M unit :=
  match wrong_fields r with
  | [] => emit (EvRow r)
  | _ => raise (ValueError "dict contains fields not in fieldnames")
  end.

(** [d[k]]: a missing key raises [KeyError]. *)
Definition subscript {V} (d : gmap string V) (k : string) : M V :=
  match d !! k with
  | Some v => ret v
  | None => raise (KeyError k)
  end.

(** ** String helpers of line 101 *)

(** ASCII white space as [str.strip()] removes it. *)
Definition is_space (c : ascii) : bool :=
  let n := nat_of_ascii c in
  (((9 <=? n) && (n <=? 13)) || ((28 <=? n) && (n <=? 32)))%nat.

Fixpoint lstrip (s : string) : string :=
  match s with
  | String c s' => if is_space c then lstrip s' else s
  | EmptyString => EmptyString
  end.

Fixpoint rstrip (s : string) : string :=
  match s with
  | EmptyString => EmptyString
  | String c s' =>
      match rstrip s' with
      | EmptyString => if is_space c then EmptyString else String c EmptyString
      | t => String c t
      end
  end.

Definition strip (s : string) : string := rstrip (lstrip s).

(** [str.replace] of the hash sign by nothing. *)
Fixpoint remove_hash (s : string) : string :=
  match s with
  | EmptyString => EmptyString
  | String c s' =>
      if Ascii.eqb c "#"%char then remove_hash s' else String c (remove_hash s')
  end.

(** ** One iteration of [device_worker] *)

Section Worker.

(** The session provider and the credentials read by [main]. *)
Variable ConnectHandler : base_device → session.
Variables (usr pwd enable : string).

(** Lines 65-72. *)
Definition make_base_device (ip : string) : base_device :=
  {| device_type := "autodetect"; host := ip; username := usr;
     password := pwd; secret := enable; timeout := 30 |}.

(** [with ConnectHandler(...) as net_connect: body]: the constructor
    connects and may raise, in which case there is nothing to leave; once
    entered, the session is disconnected however the body ends.  The body
    receives the session and its detected [device_type]. *)
Definition with_ConnectHandler {A} (d : base_device)
    (body : session → string → M A) : M A :=
  let net_connect := ConnectHandler d in
  emit (EvConnect d) >>>
  let* detected_os := lift (connect net_connect) in
  try_finally (body net_connect detected_os) (emit EvDisconnect).

(** [net_connect.send_command(cmd, use_textfsm=True)] *)
Definition send (net_connect : session) (cmd : string) : M (list record) :=
  emit (EvSend cmd) >>> lift (send_command net_connect cmd).

(** [net_connect.find_prompt()] *)
Definition prompt (net_connect : session) : M string :=
  emit EvPrompt >>> lift (find_prompt net_connect).

(** One item of the dict comprehension of lines 104-111: the key first,
    then the values in the order written. *)
Definition cdp_entry (item : record) : M (string * record) :=
  let* local_port := subscript item "local_port" in
  let* destination_host := subscript item "destination_host" in
  let* management_ip := subscript item "management_ip" in
  let* platform := subscript item "platform" in
  let* remote_port := subscript item "remote_port" in
  ret (local_port,
       ({[ "neighbor" := destination_host;
           "neighbor_ip" := management_ip;
           "neighbor_platform" := platform;
           "neighbor_port" := remote_port ]} : record)).

(** The comprehension: later items overwrite earlier ones with the same
    key. *)
Fixpoint build_cdp_lookup (cdp_data : list record)
    (acc : gmap string record) : M (gmap string record) :=
  match cdp_data with
  | [] => ret acc
  | item :: rest =>
      let* kv := cdp_entry item in
      build_cdp_lookup rest (<[kv.1 := kv.2]> acc)
  end.

(** [cdp_lookup.get(local_int, {})], where [local_int] may be [None]. *)
Definition cdp_get (cdp_lookup : gmap string record)
    (local_int : option string) : record :=
  match local_int with
  | Some k => default ∅ (cdp_lookup !! k)
  | None => ∅
  end.

(** The three shapes of row the script builds. *)
Definition failure_row (ip status : string) : row :=
  {[ "ip_address" := Some ip; "status" := Some status ]}.

Definition summary_row (hostname ip : string) (device_info : record) : row :=
  {[ "hostname" := Some hostname; "ip_address" := Some ip;
     "model" := device_info !! "hardware";
     "version" := device_info !! "version";
     "status" := Some "OK" ]}.

Definition interface_row (hostname ip : string) (device_info : record)
    (cdp_lookup : gmap string record) (iface : record) : row :=
  let local_int := iface !! "intf" in
  let cdp_neighbor_info := cdp_get cdp_lookup local_int in
  {[ "hostname" := Some hostname;
     "ip_address" := Some ip;
     "model" := device_info !! "hardware";
     "version" := device_info !! "version";
     "interface" := local_int;
     "interface_ip" := iface !! "ipaddr";
     "interface_status" := iface !! "status";
     "protocol_status" := iface !! "proto";
     "neighbor_device" := cdp_neighbor_info !! "neighbor";
     "neighbor_platform" := cdp_neighbor_info !! "neighbor_platform";
     "neighbor_interface" := cdp_neighbor_info !! "neighbor_port";
     "status" := Some "OK" ]}.

(** Lines 87-92: the inventory commands, in the order sent. *)
Definition fetch (net_connect : session) (commands : gmap string string)
    : M (list record * list record * list record) :=
  let* version_cmd := subscript commands "version" in
  let* version_data := send net_connect version_cmd in
  let* interfaces_cmd := subscript commands "interfaces" in
  let* interface_data := send net_connect interfaces_cmd in
  let* cdp_data :=
    match commands !! "cdp" with
    | Some _ =>
        let* cdp_cmd := subscript commands "cdp" in
        send net_connect cdp_cmd
    | None => ret []
    end in
  ret (version_data, interface_data, cdp_data).

(** Line 101: the record's hostname, else the prompt without its hash
    signs and surrounding white space. *)
Definition hostname_of (device_info : record) (p : string) : string :=
  default (strip (remove_hash p)) (device_info !! "hostname").

(** Lines 95-141.  [continue] ends the body of the [with] block, so each
    early exit is the last action of its branch.  The prompt is read
    before [dict.get] looks at the record, as Python evaluates the default
    argument first. *)
Definition correlate (ip : string) (net_connect : session)
    (version_data interface_data cdp_data : list record) : M unit :=
  match version_data with
  | [] => writerow (failure_row ip "Failed to parse version")
  | device_info :: _ =>
      let* p := prompt net_connect in
      let hostname := hostname_of device_info p in
      let* cdp_lookup := build_cdp_lookup cdp_data ∅ in
      match interface_data with
      | [] => writerow (summary_row hostname ip device_info)
      | _ :: _ =>
          for_each interface_data (λ iface,
            writerow
              (interface_row hostname ip device_info cdp_lookup iface))
      end
  end.

(** Lines 76-141, the body of the [with] block. *)
Definition session_body (ip : string) (net_connect : session)
    (detected_os : string) : M unit :=
  match COMMAND_MAP !! detected_os with
  | None => writerow (failure_row ip ("Unsupported OS: " +:+ detected_os))
  | Some commands =>
      let* data := fetch net_connect commands in
      correlate ip net_connect data.1.1 data.1.2 data.2
  end.

(** The three [except] clauses of lines 143-151. *)
Definition handler (ip : string) (e : exn) : M unit :=
  match e with
  | NetmikoAuthenticationException _ =>
      writerow (failure_row ip "Authentication Failed")
  | NetmikoTimeoutException _ =>
      writerow (failure_row ip "Connection Timeout")
  | _ => writerow (failure_row ip ("Error: " +:+ exn_str e))
  end.

(** The [try] statement without its [finally]: the device session task. *)
Definition device_task (ip : string) : M unit :=
  try_except
    (with_ConnectHandler (make_base_device ip) (session_body ip))
    (handler ip).

(** Lines 61-154: what a worker does with a device it has popped. *)
Definition device_worker_iteration (ip : string) : M unit :=
  try_finally (device_task ip) (emit EvTaskDone >>> emit EvPbar).

(** The rows a log contains, in order. *)
Definition rows_of (log : list event) : list row :=
  omap (λ ev, match ev with EvRow r => Some r | _ => None end) log.

End Worker.

(** ** The worker pool of [main] *)

(** What reaches the CSV file: one cell at a time, then the line end. *)
Inductive token : Type :=
| Cell (text : string)
| EOL.

Definition csv_line (cells : list string) : list token :=
  map Cell cells ++ [EOL].

(** Where a worker thread stands in [device_worker]. *)
Inductive pc : Type :=
| AtCheck
    (** line 59, about to evaluate [work_queue.empty()] *)
| AtGet
    (** line 60, the test found an item; about to call the blocking
        [work_queue.get()] *)
| Running (ip : string) (script : list event) (res : exn + unit)
    (** lines 61-154 for [ip]: the effects still to happen and how the
        iteration will end *)
| Writing (cells : list string) (ip : string) (script : list event)
    (res : exn + unit)
    (** inside [with self.lock] of [writerow]: the cells still to write *)
| Exited
    (** the loop condition was false and the thread function returned *)
| Crashed (e : exn).
    (** an exception left [device_worker] *)

(** Where the main thread stands after it has started the workers. *)
Inductive main_pc : Type :=
| MainJoinQueue     (** line 219, [work_queue.join()] *)
| MainJoinThreads   (** lines 222-223, [thread.join()] for every thread *)
| MainDone.         (** line 225 *)

(** The state shared by the threads.  [done_log] records, for the proofs,
    the device of every [task_done()] call. *)
Record pool : Type := Pool {
  work_queue : list string;
  unfinished_tasks : nat;
  lock : option nat;
  csvfile : list token;
  pbar : nat;
  threads : list pc;
  main_thread : main_pc;
  done_log : list string
}.

Inductive actor : Type :=
| Main
| Worker (i : nat).

Definition set_thread (i : nat) (p : pc) (s : pool) : pool :=
  {| work_queue := work_queue s; unfinished_tasks := unfinished_tasks s;
     lock := lock s; csvfile := csvfile s; pbar := pbar s;
     threads := <[i := p]> (threads s); main_thread := main_thread s;
     done_log := done_log s |}.

Definition is_task_done (ev : event) : bool :=
  match ev with
  | EvTaskDone => true
  | _ => false
  end.

Definition terminated (p : pc) : bool :=
  match p with
  | Exited | Crashed _ => true
  | _ => false
  end.

Section Pool.

Variable ConnectHandler : base_device → session.
Variables (usr pwd enable : string).

(** The effects of processing [ip], and whether the iteration returns. *)
Definition iteration_script (ip : string) : list event :=
  (device_worker_iteration ConnectHandler usr pwd enable ip []).2.

Definition iteration_result (ip : string) : exn + unit :=
  (device_worker_iteration ConnectHandler usr pwd enable ip []).1.

(** One step of worker [i] standing at [p]; [None] when the thread is
    blocked or has ended. *)
Definition worker_step (i : nat) (p : pc) (s : pool) : option pool :=
  match p with
  | AtCheck =>
      match work_queue s with
      | [] => Some (set_thread i Exited s)
      | _ :: _ => Some (set_thread i AtGet s)
      end
  | AtGet =>
      match work_queue s with
      | [] => None
      | ip :: rest =>
          Some {| work_queue := rest;
                  unfinished_tasks := unfinished_tasks s;
                  lock := lock s; csvfile := csvfile s; pbar := pbar s;
                  threads :=
                    <[i := Running ip (iteration_script ip)
                             (iteration_result ip)]> (threads s);
                  main_thread := main_thread s;
                  done_log := done_log s |}
      end
  | Running ip [] (inr _) => Some (set_thread i AtCheck s)
  | Running ip [] (inl e) => Some (set_thread i (Crashed e) s)
  | Running ip (EvRow r :: script) res =>
      match lock s with
      | Some _ => None
      | None =>
          Some {| work_queue := work_queue s;
                  unfinished_tasks := unfinished_tasks s;
                  lock := Some i; csvfile := csvfile s; pbar := pbar s;
                  threads :=
                    <[i := Writing (csv_cells r) ip script res]> (threads s);
                  main_thread := main_thread s;
                  done_log := done_log s |}
      end
  | Running ip (EvTaskDone :: script) res =>
      match unfinished_tasks s with
      | O =>
          Some (set_thread i
                  (Crashed (ValueError "task_done() called too many times"))
                  s)
      | S n =>
          Some {| work_queue := work_queue s; unfinished_tasks := n;
                  lock := lock s; csvfile := csvfile s; pbar := pbar s;
                  threads := <[i := Running ip script res]> (threads s);
                  main_thread := main_thread s;
                  done_log := done_log s ++ [ip] |}
      end
  | Running ip (EvPbar :: script) res =>
      Some {| work_queue := work_queue s;
              unfinished_tasks := unfinished_tasks s;
              lock := lock s; csvfile := csvfile s; pbar := S (pbar s);
              threads := <[i := Running ip script res]> (threads s);
              main_thread := main_thread s;
              done_log := done_log s |}
  | Running ip (_ :: script) res =>
      Some (set_thread i (Running ip script res) s)
  | Writing (c :: cells) ip script res =>
      Some {| work_queue := work_queue s;
              unfinished_tasks := unfinished_tasks s;
              lock := lock s; csvfile := csvfile s ++ [Cell c];
              pbar := pbar s;
              threads := <[i := Writing cells ip script res]> (threads s);
              main_thread := main_thread s;
              done_log := done_log s |}
  | Writing [] ip script res =>
      Some {| work_queue := work_queue s;
              unfinished_tasks := unfinished_tasks s;
              lock := None; csvfile := csvfile s ++ [EOL];
              pbar := pbar s;
              threads := <[i := Running ip script res]> (threads s);
              main_thread := main_thread s;
              done_log := done_log s |}
  | Exited | Crashed _ => None
  end.

(** One step of the main thread: each join blocks until its condition
    holds. *)
Definition main_step (s : pool) : option pool :=
  let goto m :=
    {| work_queue := work_queue s; unfinished_tasks := unfinished_tasks s;
       lock := lock s; csvfile := csvfile s; pbar := pbar s;
       threads := threads s; main_thread := m; done_log := done_log s |} in
  match main_thread s with
  | MainJoinQueue =>
      match unfinished_tasks s with
      | O => Some (goto MainJoinThreads)
      | S _ => None
      end
  | MainJoinThreads =>
      if forallb terminated (threads s) then Some (goto MainDone) else None
  | MainDone => None
  end.

Definition step (a : actor) (s : pool) : option pool :=
  match a with
  | Main => main_step s
  | Worker i =>
      match threads s !! i with
      | Some p => worker_step i p s
      | None => None
      end
  end.

(** Running a schedule: the actors that take a step, in order. *)
Fixpoint run (schedule : list actor) (s : pool) : option pool :=
  match schedule with
  | [] => Some s
  | a :: rest =>
      match step a s with
      | Some s' => run rest s'
      | None => None
      end
  end.

(** The state in which [main] reaches line 219: the queue seeded with the
    devices, the header written, [min(NUM_THREADS, len(devices))] workers
    started.  A thread that has been started and has not run yet stands at
    [AtCheck].  ([main] returns before this point when the device file is
    empty.) *)
Definition main_init (devices : list string) : pool :=
  {| work_queue := devices;
     unfinished_tasks := length devices;
     lock := None;
     csvfile := csv_line fieldnames;
     pbar := 0;
     threads := replicate (Nat.min NUM_THREADS (length devices)) AtCheck;
     main_thread := MainJoinQueue;
     done_log := [] |}.

(** A state from which nobody can move although [main] has not finished. *)
Definition hung (s : pool) : Prop :=
  (∀ a, step a s = None) ∧ main_thread s ≠ MainDone.

(** The devices a thread has popped and not yet marked done. *)
Definition pending (p : pc) : list string :=
  match p with
  | Running ip script _ | Writing _ ip script _ =>
      replicate (length (List.filter is_task_done script)) ip
  | _ => []
  end.

Definition in_flight (s : pool) : list string :=
  concat (map pending (threads s)).

End Pool.

(** ** Traces of the device session task *)

(** A computation only appends to the log, and what it appends does not
    depend on what is already there. *)
Definition appends {A} (m : M A) : Prop :=
  ∀ log, m log = ((m []).1, log ++ (m []).2).

Section Traces.

Variable ConnectHandler : base_device → session.
Variables (usr pwd enable : string).

(** The status written by the [except] clause that catches [e]. *)
Definition handler_status (e : exn) : string :=
  match e with
  | NetmikoAuthenticationException _ => "Authentication Failed"
  | NetmikoTimeoutException _ => "Connection Timeout"
  | _ => "Error: " +:+ exn_str e
  end.

Definition the_session (ip : string) : session :=
  ConnectHandler (make_base_device usr pwd enable ip).

(** The paths through the [with] statement of lines 75-141: how it ends
    (returns, or raises [e]) and the events it leaves after the connection
    attempt. *)
Inductive session_trace (ip : string) : exn + unit → list event → Prop :=
| TrConnectFailed e :
    connect (the_session ip) = inl e →
    session_trace ip (inl e) []
| TrUnsupported os :
    connect (the_session ip) = inr os →
    COMMAND_MAP !! os = None →
    session_trace ip (inr tt)
      [EvRow (failure_row ip ("Unsupported OS: " +:+ os)); EvDisconnect]
| TrFetchFailed os commands e evs :
    connect (the_session ip) = inr os →
    COMMAND_MAP !! os = Some commands →
    fetch (the_session ip) commands [] = (inl e, evs) →
    session_trace ip (inl e) (evs ++ [EvDisconnect])
| TrVersionFailed os commands ifaces cdp evs :
    connect (the_session ip) = inr os →
    COMMAND_MAP !! os = Some commands →
    fetch (the_session ip) commands [] = (inr ([], ifaces, cdp), evs) →
    session_trace ip (inr tt)
      (evs ++ [EvRow (failure_row ip "Failed to parse version");
               EvDisconnect])
| TrPromptFailed os commands v vs ifaces cdp evs e :
    connect (the_session ip) = inr os →
    COMMAND_MAP !! os = Some commands →
    fetch (the_session ip) commands [] = (inr (v :: vs, ifaces, cdp), evs) →
    find_prompt (the_session ip) = inl e →
    session_trace ip (inl e) (evs ++ [EvPrompt; EvDisconnect])
| TrLookupFailed os commands v vs ifaces cdp evs p e :
    connect (the_session ip) = inr os →
    COMMAND_MAP !! os = Some commands →
    fetch (the_session ip) commands [] = (inr (v :: vs, ifaces, cdp), evs) →
    find_prompt (the_session ip) = inr p →
    build_cdp_lookup cdp ∅ [] = (inl e, []) →
    session_trace ip (inl e) (evs ++ [EvPrompt; EvDisconnect])
| TrSummary os commands v vs cdp evs p cdp_lookup :
    connect (the_session ip) = inr os →
    COMMAND_MAP !! os = Some commands →
    fetch (the_session ip) commands [] = (inr (v :: vs, [], cdp), evs) →
    find_prompt (the_session ip) = inr p →
    build_cdp_lookup cdp ∅ [] = (inr cdp_lookup, []) →
    session_trace ip (inr tt)
      (evs ++ [EvPrompt; EvRow (summary_row (hostname_of v p) ip v);
               EvDisconnect])
| TrInterfaces os commands v vs ifaces cdp evs p cdp_lookup :
    connect (the_session ip) = inr os →
    COMMAND_MAP !! os = Some commands →
    fetch (the_session ip) commands [] = (inr (v :: vs, ifaces, cdp), evs) →
    find_prompt (the_session ip) = inr p →
    build_cdp_lookup cdp ∅ [] = (inr cdp_lookup, []) →
    ifaces ≠ [] →
    session_trace ip (inr tt)
      (evs ++ [EvPrompt]
           ++ map (λ iface,
                EvRow (interface_row (hostname_of v p) ip v cdp_lookup iface))
                ifaces
           ++ [EvDisconnect]).

(** What the [except] clauses add once the [with] statement has ended. *)
Definition handled (ip : string) (res : exn + unit) : list event :=
  match res with
  | inr _ => []
  | inl e => [EvRow (failure_row ip (handler_status e))]
  end.

End Traces.

(** ** Statements about rows *)

Definition status_ok (r : row) : Prop := r !! "status" = Some (Some "OK").

(** The five kinds of failure status the script writes. *)
Inductive failure_status : string → Prop :=
| StUnsupported os :
    COMMAND_MAP !! os = None → failure_status ("Unsupported OS: " +:+ os)
| StAuthentication : failure_status "Authentication Failed"
| StTimeout : failure_status "Connection Timeout"
| StVersion : failure_status "Failed to parse version"
| StError e : failure_status ("Error: " +:+ exn_str e).

(** An interface row carries neighbor data / carries none. *)
Definition neighbor_populated (r : row) : Prop :=
  ∃ device platform port,
    r !! "neighbor_device" = Some (Some device) ∧
    r !! "neighbor_platform" = Some (Some platform) ∧
    r !! "neighbor_interface" = Some (Some port).

Definition neighbor_blank (r : row) : Prop :=
  r !! "neighbor_device" = Some None ∧
  r !! "neighbor_platform" = Some None ∧
  r !! "neighbor_interface" = Some None.

(** A neighbor record has every key the comprehension of lines 104-111
    subscripts. *)
Definition neighbor_complete (item : record) : Prop :=
  Forall (λ k, is_Some (item !! k))
    ["local_port"; "destination_host"; "management_ip"; "platform";
     "remote_port"].

(** The entry the lookup holds for [item]. *)
Definition neighbor_info (item : record) : record :=
  {[ "neighbor" := default EmptyString (item !! "destination_host");
     "neighbor_ip" := default EmptyString (item !! "management_ip");
     "neighbor_platform" := default EmptyString (item !! "platform");
     "neighbor_port" := default EmptyString (item !! "remote_port") ]}.

(** The last record of [cdp_data] whose local port is [k]. *)
Definition last_neighbor (cdp_data : list record) (k : string)
    : option record :=
  last (filter (λ item, item !! "local_port" = Some k) cdp_data).

(** An event that is a command sent to the device. *)
Definition is_send (ev : event) : Prop := ∃ cmd, ev = EvSend cmd.

(** ** Invariants of the worker pool *)

(** A thread that will not leave [device_worker] by an exception. *)
Definition thread_returns (p : pc) : Prop :=
  match p with
  | Running _ _ res | Writing _ _ _ res => res = inr tt
  | Crashed _ => False
  | _ => True
  end.

(** The bookkeeping of [queue.Queue]: the counter equals the items waiting
    plus the items popped and not yet marked done; every device is waiting,
    in flight or done, exactly once; and [join()] is passed only at zero. *)
Record queue_inv (devices : list string) (s : pool) : Prop := QueueInv {
  inv_counter :
    unfinished_tasks s = length (work_queue s) + length (in_flight s);
  inv_items : devices ≡ₚ work_queue s ++ in_flight s ++ done_log s;
  inv_join : main_thread s ≠ MainJoinQueue → unfinished_tasks s = 0;
  inv_alive : Forall thread_returns (threads s)
}.

Definition is_writing (p : pc) : Prop :=
  match p with
  | Writing _ _ _ _ => True
  | _ => False
  end.

(** The file holds the header and whole lines, then the cells [partial] of
    the line being written; that line belongs to the thread that holds the
    lock, and no other thread is inside [writerow]. *)
Record sink_inv (s : pool) (lines : list (list string))
    (partial : list string) : Prop := SinkInv {
  sink_file :
    csvfile s = concat (map csv_line (fieldnames :: lines)) ++ map Cell partial;
  sink_lines : Forall (λ line, ∃ r, line = csv_cells r) lines;
  sink_partial :
    match lock s with
    | None => partial = []
    | Some i =>
        ∃ cells ip script res r,
          threads s !! i = Some (Writing cells ip script res) ∧
          csv_cells r = partial ++ cells
    end;
  sink_exclusive :
    ∀ j p, threads s !! j = Some p → is_writing p → lock s = Some j
}.

(** ** A small network to run the script on *)

Module Scenario.

Definition version_record : record :=
  {[ "hostname" := "sw1"; "hardware" := "C9300-24T"; "version" := "17.3.4" ]}.

Definition gi1 : record :=
  {[ "intf" := "GigabitEthernet0/1"; "ipaddr" := "10.1.1.1";
     "status" := "up"; "proto" := "up" ]}.

Definition gi2 : record :=
  {[ "intf" := "GigabitEthernet0/2"; "ipaddr" := "unassigned";
     "status" := "down"; "proto" := "down" ]}.

Definition neighbor : record :=
  {[ "local_port" := "GigabitEthernet0/1"; "destination_host" := "sw2";
     "management_ip" := "10.0.0.9"; "platform" := "cisco WS-C2960";
     "remote_port" := "GigabitEthernet1/0/1" ]}.

(** The same neighbor as reported by a template without a management
    address. *)
Definition neighbor_without_address : record :=
  delete "management_ip" neighbor.

Definition answers (version_data interface_data cdp_data : list record)
    (cmd : string) : exn + list record :=
  if decide (cmd = "show version") then inr version_data
  else if decide (cmd = "show cdp neighbors detail") then inr cdp_data
  else inr interface_data.

(** 10.0.0.1: two interfaces, a neighbor on the first. *)
Definition switch : session :=
  {| connect := inr "cisco_ios";
     send_command := answers [version_record] [gi1; gi2] [neighbor];
     find_prompt := inr "sw1#" |}.

(** 10.0.0.2: rejects the credentials. *)
Definition locked : session :=
  {| connect := inl (NetmikoAuthenticationException "Authentication failed");
     send_command := λ _, inr [];
     find_prompt := inr EmptyString |}.

(** 10.0.0.3: a device of another vendor. *)
Definition foreign : session :=
  {| connect := inr "juniper_junos";
     send_command := λ _, inr [];
     find_prompt := inr "user@mx1>" |}.

(** 10.0.0.4: the version output does not parse. *)
Definition mute : session :=
  {| connect := inr "cisco_ios";
     send_command := answers [] [gi1; gi2] [neighbor];
     find_prompt := inr "sw4#" |}.

(** 10.0.0.5: the neighbor records lack the management address. *)
Definition sparse : session :=
  {| connect := inr "cisco_ios";
     send_command := answers [version_record] [gi1] [neighbor_without_address];
     find_prompt := inr "sw5#" |}.

(** 10.0.0.6: does not answer. *)
Definition silent : session :=
  {| connect := inl (NetmikoTimeoutException "TCP connection to device failed");
     send_command := λ _, inr [];
     find_prompt := inr EmptyString |}.

Definition provider (d : base_device) : session :=
  if decide (host d = "10.0.0.1") then switch
  else if decide (host d = "10.0.0.2") then locked
  else if decide (host d = "10.0.0.3") then foreign
  else if decide (host d = "10.0.0.4") then mute
  else if decide (host d = "10.0.0.5") then sparse
  else silent.

Definition script (ip : string) : list event :=
  iteration_script provider "admin" "pw" "en" ip.

Definition rows (ip : string) : list row := rows_of (script ip).

(** The spec's end-to-end input. *)
Definition devices : list string := ["10.0.0.1"; "10.0.0.2"].

(** Worker 0 processes 10.0.0.1 and tests the queue again; worker 1 tests
    the queue; worker 0 pops and processes 10.0.0.2 and leaves; the main
    thread passes [work_queue.join()]. *)
Definition schedule : list actor :=
  replicate 40 (Worker 0) ++ [Worker 1] ++ replicate 20 (Worker 0) ++ [Main].

Definition start : pool := main_init devices.

Definition go (sched : list actor) : option pool :=
  run provider "admin" "pw" "en" sched start.

End Scenario.

(** ** Further statements about one iteration *)

(** The commands of a catalog entry in the order lines 87-92 send them. *)
Definition command_list (commands : gmap string string) : list string :=
  omap (λ k, commands !! k) ["version"; "interfaces"; "cdp"].

(** Events that talk to the device over the open session. *)
Definition uses_session (ev : event) : bool :=
  match ev with
  | EvSend _ | EvPrompt => true
  | _ => false
  end.

Definition is_connect (ev : event) : bool :=
  match ev with
  | EvConnect _ => true
  | _ => false
  end.

Definition is_disconnect (ev : event) : bool :=
  match ev with
  | EvDisconnect => true
  | _ => false
  end.

(** What a log holds after its first disconnect. *)
Fixpoint after_disconnect (log : list event) : list event :=
  match log with
  | [] => []
  | EvDisconnect :: rest => rest
  | _ :: rest => after_disconnect rest
  end.

(** ** The device file *)





(** ** Further statements about the pool *)

(** The steps a thread needs to run a script to its end: one for each
    event, and for a row the lock, one step for each cell and the line end. *)
Fixpoint script_steps (script : list event) : nat :=
  match script with
  | [] => 0
  | EvRow r :: rest => 2 + length (csv_cells r) + script_steps rest
  | _ :: rest => 1 + script_steps rest
  end.

(** The steps a thread can still take without popping a device. *)
Definition thread_steps (p : pc) : nat :=
  match p with
  | AtCheck => 2
  | AtGet => 1
  | Running _ script _ => script_steps script + 3
  | Writing cells _ script _ => length cells + 1 + script_steps script + 3
  | Exited | Crashed _ => 0
  end.

Definition main_steps (m : main_pc) : nat :=
  match m with
  | MainJoinQueue => 2
  | MainJoinThreads => 1
  | MainDone => 0
  end.

(** The lines a thread has still to write, [partial] being the cells of the
    line under way. *)
Definition owed_by (partial : list string) (p : pc) : list (list string) :=
  match p with
  | Running _ script _ => map csv_cells (rows_of script)
  | Writing cells _ script _ =>
      (partial ++ cells) :: map csv_cells (rows_of script)
  | _ => []
  end.

Definition is_pbar (ev : event) : bool :=
  match ev with
  | EvPbar => true
  | _ => false
  end.

(** The progress updates a thread has still to make for its device. *)
Definition pbar_due (p : pc) : nat :=
  match p with
  | Running _ script _ | Writing _ _ script _ =>
      length (List.filter is_pbar script)
  | _ => 0
  end.

(** Facts about the pool that hold whatever the devices answer: the number
    of threads never changes; the queue is a suffix of the device list; a
    worker has left only if the queue was empty; [main] is done only when
    every thread has ended; and as many progress updates are made or due as
    devices are done or in flight. *)
Record pool_inv (devices : list string) (s : pool) : Prop := PoolInv {
  pi_threads : length (threads s) = Nat.min NUM_THREADS (length devices);
  pi_fifo : ∃ taken, devices = taken ++ work_queue s;
  pi_exited : (∃ i, threads s !! i = Some Exited) → work_queue s = [];
  pi_done : main_thread s = MainDone → forallb terminated (threads s) = true;
  pi_progress :
    length (done_log s) + length (in_flight s) =
      pbar s + sum_list (map pbar_due (threads s))
}.

Section PoolMeasures.

Variable ConnectHandler : base_device → session.
Variables (usr pwd enable : string).

(** The lines of a device: the cells of its rows, in order. *)
Definition device_lines (ip : string) : list (list string) :=
  map csv_cells (rows_of (iteration_script ConnectHandler usr pwd enable ip)).

Definition all_lines (devices : list string) : list (list string) :=
  concat (map device_lines devices).

(** The lines still to be written: by the threads, and for the devices
    that wait in the queue. *)
Definition owed_lines (partial : list string) (s : pool)
    : list (list string) :=
  concat (map (owed_by partial) (threads s)) ++ all_lines (work_queue s).

(** The steps a queued device costs the thread that pops it. *)
Definition device_steps (ip : string) : nat :=
  script_steps (iteration_script ConnectHandler usr pwd enable ip) + 3.

(** An upper bound on the number of steps the pool can still take. *)
Definition steps_left (s : pool) : nat :=
  main_steps (main_thread s)
  + sum_list (map thread_steps (threads s))
  + sum_list (map device_steps (work_queue s)).

End PoolMeasures.

(** How a step of a thread standing at [p] changes the whole lines of the
    file and the cells of the line under way. *)
Definition next_lines (lines : list (list string)) (partial : list string)
    (p : pc) : list (list string) :=
  match p with
  | Writing [] _ _ _ => lines ++ [partial]
  | _ => lines
  end.

Definition next_partial (partial : list string) (p : pc) : list string :=
  match p with
  | Writing (c :: _) _ _ _ => partial ++ [c]
  | Writing [] _ _ _ => []
  | _ => partial
  end.

(** A worker that is parked in [get()] or has left. *)
Definition parked (p : pc) : Prop := p = AtGet ∨ p = Exited.

(** The tokens a thread has still to write. *)
Definition tokens_due (p : pc) : list token :=
  match p with
  | Running _ script _ =>
      concat (map csv_line (map csv_cells (rows_of script)))
  | Writing cells _ script _ =>
      csv_line cells ++ concat (map csv_line (map csv_cells (rows_of script)))
  | _ => []
  end.

(** ** A second estate *)

(** Devices the first scenario lacks: a firewall, a switch that reports
    neither its name nor an interface, and a switch whose session drops;
    and two schedules after which [main] is done. *)
Module Estate.

(** 10.0.1.1: a firewall; it would name a neighbor if it were asked. *)
Definition firewall : session :=
  {| connect := inr "cisco_asa";
     send_command :=
       Scenario.answers [Scenario.version_record] [Scenario.gi1]
         [Scenario.neighbor];
     find_prompt := inr "fw1#" |}.

Definition bare_version : record :=
  {[ "hardware" := "N9K-C93180YC"; "version" := "9.3(8)" ]}.

(** 10.0.1.2: no hostname in the version record, no interface. *)
Definition bare : session :=
  {| connect := inr "cisco_nxos";
     send_command := Scenario.answers [bare_version] [] [];
     find_prompt := inr " core1# " |}.

(** 10.0.1.3: the session drops at the second command. *)
Definition flaky : session :=
  {| connect := inr "cisco_ios";
     send_command := λ cmd,
       if decide (cmd = "show version") then inr [Scenario.version_record]
       else inl (OtherException "Socket is closed");
     find_prompt := inr "sw3#" |}.

Definition provider (d : base_device) : session :=
  if decide (host d = "10.0.1.1") then firewall
  else if decide (host d = "10.0.1.2") then bare
  else if decide (host d = "10.0.1.3") then flaky
  else Scenario.provider d.

Definition script (ip : string) : list event :=
  iteration_script provider "admin" "pw" "en" ip.

Definition rows (ip : string) : list row := rows_of (script ip).

Definition go (devices : list string) (sched : list actor) : option pool :=
  run provider "admin" "pw" "en" sched (main_init devices).

(** Two workers take one device each and both leave; [main] passes both
    joins. *)
Definition fair_schedule : list actor :=
  [Worker 0; Worker 1] ++ replicate 23 (Worker 0) ++ replicate 24 (Worker 1)
  ++ [Worker 0; Worker 1; Main; Main].

(** The only worker processes the device and leaves; [main] passes both
    joins. *)
Definition lone_schedule : list actor :=
  replicate 26 (Worker 0) ++ [Main; Main].

End Estate.

(** * Proofs *)

(** ** The monad only appends to the log *)

Lemma appends_ret {A} (a : A) : appends (ret a).
Proof. intros log. unfold ret. simpl. by rewrite app_nil_r. Qed.

Lemma appends_raise {A} e : appends (@raise A e).
Proof. intros log. unfold raise. simpl. by rewrite app_nil_r. Qed.

Lemma appends_emit ev : appends (emit ev).
Proof. intros log. reflexivity. Qed.

Lemma appends_lift {A} (x : exn + A) : appends (lift x).
Proof. destruct x; [apply appends_raise | apply appends_ret]. Qed.

Lemma appends_bind {A B} (m : M A) (k : A → M B) :
  appends m → (∀ a, appends (k a)) → appends (bind m k).
Proof.
  intros Hm Hk log. unfold bind. rewrite (Hm log).
  destruct (m []) as [[e|a] evs]; simpl.
  - reflexivity.
  - rewrite (Hk a (log ++ evs)), (Hk a evs). simpl. by rewrite app_assoc.
Qed.

Lemma appends_try_except {A} (m : M A) h :
  appends m → (∀ e, appends (h e)) → appends (try_except m h).
Proof.
  intros Hm Hh log. unfold try_except. rewrite (Hm log).
  destruct (m []) as [[e|a] evs]; simpl.
  - rewrite (Hh e (log ++ evs)), (Hh e evs). simpl. by rewrite app_assoc.
  - reflexivity.
Qed.

Lemma appends_try_finally {A} (m : M A) fin :
  appends m → appends fin → appends (try_finally m fin).
Proof.
  intros Hm Hf log. unfold try_finally. rewrite (Hm log).
  destruct (m []) as [res evs]; simpl.
  rewrite (Hf (log ++ evs)), (Hf evs).
  destruct (fin []) as [[e|[]] evs']; simpl; by rewrite app_assoc.
Qed.

Lemma appends_writerow r : appends (writerow r).
Proof.
  unfold writerow. destruct (wrong_fields r);
    [apply appends_emit | apply appends_raise].
Qed.

Lemma appends_subscript {V} (d : gmap string V) k : appends (subscript d k).
Proof.
  unfold subscript. destruct (d !! k); [apply appends_ret | apply appends_raise].
Qed.

Lemma appends_for_each {A} (xs : list A) body :
  (∀ x, appends (body x)) → appends (for_each xs body).
Proof.
  intros Hb. induction xs as [|x xs IH]; simpl.
  - apply appends_ret.
  - apply appends_bind; [apply Hb | intros _; apply IH].
Qed.

Create HintDb appends.
#[local] Hint Resolve appends_ret appends_raise appends_emit appends_lift
  appends_writerow appends_subscript : appends.
#[local] Hint Extern 2 (appends (bind _ _)) =>
  apply appends_bind; [|intros ?] : appends.
#[local] Hint Extern 2 (appends (try_except _ _)) =>
  apply appends_try_except; [|intros ?] : appends.
#[local] Hint Extern 2 (appends (try_finally _ _)) =>
  apply appends_try_finally : appends.
#[local] Hint Extern 2 (appends (for_each _ _)) =>
  apply appends_for_each; intros ? : appends.
#[local] Hint Extern 3 (appends (match ?x with _ => _ end)) =>
  destruct x : appends.

(** ** Facts about one iteration *)

Section WorkerFacts.
Variable ConnectHandler : base_device → session.
Variables (usr pwd enable : string).

Lemma appends_cdp_entry item : appends (cdp_entry item).
Proof. unfold cdp_entry. auto 20 with appends. Qed.

Lemma appends_build_cdp_lookup l acc : appends (build_cdp_lookup l acc).
Proof.
  revert acc. induction l as [|item l IH]; intros acc; simpl.
  - apply appends_ret.
  - apply appends_bind; [apply appends_cdp_entry | intros ?; apply IH].
Qed.

Lemma appends_fetch s c : appends (fetch s c).
Proof. unfold fetch, send. auto 30 with appends. Qed.

Lemma appends_correlate ip s v i c : appends (correlate ip s v i c).
Proof.
  unfold correlate, prompt. destruct v; [auto with appends|].
  apply appends_bind; [auto with appends | intros p].
  apply appends_bind; [apply appends_build_cdp_lookup | intros lk].
  destruct i; auto with appends.
Qed.

Lemma appends_session_body ip s os : appends (session_body ip s os).
Proof.
  unfold session_body. destruct (COMMAND_MAP !! os); [|auto with appends].
  apply appends_bind; [apply appends_fetch | intros ?; apply appends_correlate].
Qed.

Lemma appends_handler ip e : appends (handler ip e).
Proof. destruct e; simpl; auto with appends. Qed.

Abbreviation sess := (the_session ConnectHandler usr pwd enable).
Abbreviation trace := (session_trace ConnectHandler usr pwd enable).

Lemma wrong_fields_failure_row ip st : wrong_fields (failure_row ip st) = [].
Proof. vm_compute. reflexivity. Qed.

Lemma wrong_fields_summary_row h ip (v : record) :
  wrong_fields (summary_row h ip v) = [].
Proof. vm_compute. reflexivity. Qed.

Lemma wrong_fields_interface_row h ip (v : record) lk (i : record) :
  wrong_fields (interface_row h ip v lk i) = [].
Proof. vm_compute. reflexivity. Qed.

Lemma writerow_emit r log :
  wrong_fields r = [] → writerow r log = (inr tt, log ++ [EvRow r]).
Proof. intros H. unfold writerow. by rewrite H. Qed.

Lemma handler_run ip e log :
  handler ip e log =
    (inr tt, log ++ [EvRow (failure_row ip (handler_status e))]).
Proof.
  destruct e; simpl; apply writerow_emit, wrong_fields_failure_row.
Qed.

Lemma for_each_interface_rows h ip (v : record) lk (ifaces : list record) log :
  for_each ifaces (λ iface, writerow (interface_row h ip v lk iface)) log =
    (inr tt, log ++ map (λ iface, EvRow (interface_row h ip v lk iface)) ifaces).
Proof.
  revert log. induction ifaces as [|i ifaces IH]; intros log; simpl.
  - unfold ret. by rewrite app_nil_r.
  - unfold bind. rewrite writerow_emit by apply wrong_fields_interface_row.
    rewrite IH. by rewrite <- app_assoc.
Qed.

Lemma cdp_entry_silent item : (cdp_entry item []).2 = [].
Proof.
  unfold cdp_entry, bind, subscript, ret, raise.
  repeat (case_match; simplify_eq/=); done.
Qed.

Lemma build_cdp_lookup_silent cdp acc :
  (build_cdp_lookup cdp acc []).2 = [].
Proof.
  revert acc. induction cdp as [|item cdp IH]; intros acc; simpl; [done|].
  unfold bind. pose proof (cdp_entry_silent item) as H.
  destruct (cdp_entry item []) as [[e|kv] evs]; simpl in *; subst; [done|].
  apply IH.
Qed.

(** What leaving the [with] block adds to a body that has started. *)
Lemma correlate_trace ip os commands vd ifaces cdp evs :
  connect (sess ip) = inr os →
  COMMAND_MAP !! os = Some commands →
  fetch (sess ip) commands [] = (inr (vd, ifaces, cdp), evs) →
  trace ip (correlate ip (sess ip) vd ifaces cdp []).1
    (evs ++ (correlate ip (sess ip) vd ifaces cdp []).2 ++ [EvDisconnect]).
Proof.
  intros Hc Hos Hf. unfold correlate.
  destruct vd as [|v vs].
  { rewrite writerow_emit by apply wrong_fields_failure_row. simpl.
    by eapply TrVersionFailed. }
  unfold bind at 1. unfold prompt, bind, emit, lift. simpl.
  destruct (find_prompt (sess ip)) as [e|p] eqn:Hp; simpl.
  { by eapply TrPromptFailed. }
  pose proof (appends_build_cdp_lookup cdp ∅ [EvPrompt]) as Hb.
  pose proof (build_cdp_lookup_silent cdp ∅) as Hs.
  destruct (build_cdp_lookup cdp ∅ []) as [[e|lk] evs'] eqn:Hlk;
    simpl in *; subst evs'; rewrite Hb; simpl.
  { by eapply TrLookupFailed. }
  destruct ifaces as [|i ifaces].
  { rewrite writerow_emit by apply wrong_fields_summary_row. simpl.
    by eapply TrSummary. }
  rewrite for_each_interface_rows. cbn [fst snd].
  rewrite <- (app_assoc [EvPrompt]).
  by eapply TrInterfaces.
Qed.

Lemma session_body_trace ip os :
  connect (sess ip) = inr os →
  trace ip (session_body ip (sess ip) os []).1
    ((session_body ip (sess ip) os []).2 ++ [EvDisconnect]).
Proof.
  intros Hc. unfold session_body.
  destruct (COMMAND_MAP !! os) as [commands|] eqn:Hos.
  - unfold bind.
    destruct (fetch (sess ip) commands []) as [[e|[[vd ifaces] cdp]] evs] eqn:Hf;
      simpl.
    + by eapply TrFetchFailed.
    + rewrite (appends_correlate ip (sess ip) vd ifaces cdp evs). simpl.
      rewrite <- app_assoc. by eapply correlate_trace.
  - rewrite writerow_emit by apply wrong_fields_failure_row. simpl.
    by eapply TrUnsupported.
Qed.

(** The [with] statement follows one of the paths of [session_trace]. *)
Lemma with_block_trace ip :
  ∃ res tr, trace ip res tr ∧
    with_ConnectHandler ConnectHandler (make_base_device usr pwd enable ip)
      (session_body ip) [] =
      (res, EvConnect (make_base_device usr pwd enable ip) :: tr).
Proof.
  unfold with_ConnectHandler, bind at 1 2. unfold emit at 1. simpl.
  fold (sess ip).
  destruct (connect (sess ip)) as [e|os] eqn:Hc; simpl.
  - eexists _, _. split; [by eapply TrConnectFailed | done].
  - unfold try_finally.
    rewrite (appends_session_body ip (sess ip) os
               [EvConnect (make_base_device usr pwd enable ip)]).
    pose proof (session_body_trace ip os Hc) as Ht.
    destruct (session_body ip (sess ip) os []) as [res tr]; simpl in *.
    eexists _, _. split; [exact Ht | done].
Qed.

End WorkerFacts.

(** ** Rows in a log *)

Lemma rows_of_app a b : rows_of (a ++ b) = rows_of a ++ rows_of b.
Proof. apply omap_app. Qed.

Lemma rows_of_rows {A} (f : A → row) (l : list A) :
  rows_of (map (λ x, EvRow (f x)) l) = map f l.
Proof. induction l as [|x l IH]; simpl; [done | by rewrite <- IH]. Qed.

Lemma rows_of_sends evs : Forall is_send evs → rows_of evs = [].
Proof.
  induction 1 as [|ev evs [cmd ->] _ IH]; [done|]. simpl. exact IH.
Qed.

Lemma fetch_sends s c res evs :
  fetch s c [] = (res, evs) → Forall is_send evs.
Proof.
  unfold fetch, send, bind, subscript, emit, lift, ret, raise. intros H.
  repeat (case_match; simplify_eq/=);
    repeat (apply Forall_cons; split; [by eexists|]); apply Forall_nil_2.
Qed.

Lemma fetch_no_rows s c res evs :
  fetch s c [] = (res, evs) → rows_of evs = [].
Proof. intros H. eapply rows_of_sends, fetch_sends, H. Qed.

(** ** The cells of the three row shapes *)

Lemma failure_row_status ip st :
  failure_row ip st !! "status" = Some (Some st).
Proof. vm_compute. reflexivity. Qed.

Lemma failure_row_cells ip st :
  csv_cells (failure_row ip st) =
    ["N/A"; ip; "N/A"; "N/A"; st; "N/A"; "N/A"; "N/A"; "N/A"; "N/A"; "N/A";
     "N/A"].
Proof. reflexivity. Qed.

Lemma failure_row_no_interface ip st : failure_row ip st !! "interface" = None.
Proof. reflexivity. Qed.

Lemma summary_row_fields h ip (v : record) :
  let r := summary_row h ip v in
  r !! "hostname" = Some (Some h) ∧
  r !! "ip_address" = Some (Some ip) ∧
  r !! "model" = Some (v !! "hardware") ∧
  r !! "version" = Some (v !! "version") ∧
  r !! "status" = Some (Some "OK") ∧
  r !! "interface" = None.
Proof.
  unfold summary_row. generalize (v !! "hardware") (v !! "version").
  intros. repeat split.
Qed.

Lemma interface_row_fields h ip (v : record) lk (i : record) :
  let r := interface_row h ip v lk i in
  r !! "hostname" = Some (Some h) ∧
  r !! "ip_address" = Some (Some ip) ∧
  r !! "model" = Some (v !! "hardware") ∧
  r !! "version" = Some (v !! "version") ∧
  r !! "status" = Some (Some "OK") ∧
  r !! "interface" = Some (i !! "intf") ∧
  r !! "neighbor_device" = Some (cdp_get lk (i !! "intf") !! "neighbor") ∧
  r !! "neighbor_platform" =
    Some (cdp_get lk (i !! "intf") !! "neighbor_platform") ∧
  r !! "neighbor_interface" =
    Some (cdp_get lk (i !! "intf") !! "neighbor_port").
Proof.
  unfold interface_row.
  generalize (cdp_get lk (i !! "intf") !! "neighbor")
    (cdp_get lk (i !! "intf") !! "neighbor_platform")
    (cdp_get lk (i !! "intf") !! "neighbor_port")
    (i !! "intf") (i !! "ipaddr") (i !! "status") (i !! "proto")
    (v !! "hardware") (v !! "version").
  intros. repeat split.
Qed.

Lemma interface_row_cells h ip (v : record) lk (i : record) :
  csv_cells (interface_row h ip v lk i) =
    [h; ip; cell_text (v !! "hardware"); cell_text (v !! "version"); "OK";
     cell_text (i !! "intf"); cell_text (i !! "ipaddr");
     cell_text (i !! "status"); cell_text (i !! "proto");
     cell_text (cdp_get lk (i !! "intf") !! "neighbor");
     cell_text (cdp_get lk (i !! "intf") !! "neighbor_platform");
     cell_text (cdp_get lk (i !! "intf") !! "neighbor_port")].
Proof.
  unfold interface_row.
  generalize (cdp_get lk (i !! "intf") !! "neighbor")
    (cdp_get lk (i !! "intf") !! "neighbor_platform")
    (cdp_get lk (i !! "intf") !! "neighbor_port")
    (i !! "intf") (i !! "ipaddr") (i !! "status") (i !! "proto")
    (v !! "hardware") (v !! "version").
  intros. reflexivity.
Qed.

Lemma failure_status_not_ok st : failure_status st → st ≠ "OK".
Proof. destruct 1; simpl; discriminate. Qed.

Lemma handler_status_failure e : failure_status (handler_status e).
Proof.
  destruct e as [m|m|k|m|m];
    [ apply StAuthentication | apply StTimeout | apply (StError (KeyError k))
    | apply (StError (ValueError m)) | apply (StError (OtherException m)) ].
Qed.

(** ** The neighbor lookup *)

Lemma neighbor_info_fields (item : record) :
  neighbor_info item !! "neighbor" =
    Some (default EmptyString (item !! "destination_host")) ∧
  neighbor_info item !! "neighbor_platform" =
    Some (default EmptyString (item !! "platform")) ∧
  neighbor_info item !! "neighbor_port" =
    Some (default EmptyString (item !! "remote_port")).
Proof.
  unfold neighbor_info.
  generalize (item !! "destination_host") (item !! "management_ip")
    (item !! "platform") (item !! "remote_port").
  intros. repeat split.
Qed.

Lemma cdp_entry_inv item res evs :
  cdp_entry item [] = (res, evs) →
  match res with
  | inr (k, nb) =>
      item !! "local_port" = Some k ∧ nb = neighbor_info item ∧
      neighbor_complete item
  | inl e => ¬ neighbor_complete item
  end.
Proof.
  unfold cdp_entry, bind, subscript, ret, raise, neighbor_complete, neighbor_info.
  intros H. repeat (case_match; simplify_eq/=).
  all: rewrite ?Forall_cons; try (intros (?&?&?&?&?&?); 
       repeat match goal with H : is_Some _ |- _ => destruct H end; congruence).
  repeat match goal with H : _ !! _ = Some _ |- _ => rewrite H end.
  repeat split; eauto. 
Qed.

Lemma last_neighbor_cons item cdp k :
  last_neighbor (item :: cdp) k =
    match last_neighbor cdp k with
    | Some x => Some x
    | None => if decide (item !! "local_port" = Some k) then Some item else None
    end.
Proof.
  unfold last_neighbor. rewrite filter_cons.
  case_decide as Hk; [|by destruct (last _)].
  destruct (filter _ cdp) as [|x l] eqn:Hf; [done|].
  rewrite last_cons. by destruct (last (x :: l)).
Qed.

(** The comprehension succeeds exactly on complete records, and then maps
    each local port to its last record. *)
Lemma build_cdp_lookup_inr cdp acc lk evs :
  build_cdp_lookup cdp acc [] = (inr lk, evs) →
  Forall neighbor_complete cdp ∧
  ∀ k, lk !! k =
    match last_neighbor cdp k with
    | Some item => Some (neighbor_info item)
    | None => acc !! k
    end.
Proof.
  revert acc. induction cdp as [|item cdp IH]; intros acc; simpl.
  - unfold ret. intros [= <- <-]. split; [constructor | done].
  - unfold bind. pose proof (cdp_entry_silent item) as Hs.
    destruct (cdp_entry item []) as [[e|[k0 nb]] evs0] eqn:He; [done|].
    simpl in Hs. subst evs0. intros Hb.
    apply cdp_entry_inv in He as (Hk0 & -> & Hc).
    apply IH in Hb as [Hall Hlk]. split; [by constructor|].
    intros k. rewrite Hlk, last_neighbor_cons.
    destruct (last_neighbor cdp k); [done|]. simpl.
    case_decide as Hk.
    + assert (k0 = k) as -> by congruence. by rewrite lookup_insert_eq.
    + rewrite lookup_insert_ne; [done | congruence].
Qed.

Lemma build_cdp_lookup_inl cdp acc e evs :
  build_cdp_lookup cdp acc [] = (inl e, evs) → ¬ Forall neighbor_complete cdp.
Proof.
  revert acc. induction cdp as [|item cdp IH]; intros acc; simpl.
  - done.
  - unfold bind.
    destruct (cdp_entry item []) as [[e0|[k0 nb]] evs0] eqn:He.
    + intros _ Hall. apply cdp_entry_inv in He. by inversion Hall.
    + pose proof (cdp_entry_silent item) as Hs. rewrite He in Hs.
      simpl in Hs. subst evs0. intros Hb Hall.
      apply IH in Hb. by inversion Hall.
Qed.

Lemma cdp_get_lookup (lk : gmap string record) cdp (name : option string) :
  (∀ k, lk !! k = neighbor_info <$> last_neighbor cdp k) →
  cdp_get lk name =
    match name ≫= last_neighbor cdp with
    | Some item => neighbor_info item
    | None => ∅
    end.
Proof.
  intros Hlk. destruct name as [k|]; simpl; [|done].
  rewrite Hlk. by destruct (last_neighbor cdp k).
Qed.

Lemma last_neighbor_Some cdp k item :
  last_neighbor cdp k = Some item →
  item ∈ cdp ∧ item !! "local_port" = Some k.
Proof.
  unfold last_neighbor. intros H%last_Some_elem_of.
  apply list_elem_of_filter in H as [? ?]. done.
Qed.

(** The neighbor cells of an interface row, given the lookup the
    comprehension has built. *)
Lemma interface_row_neighbor h ip (v : record) lk cdp evs (i : record) :
  build_cdp_lookup cdp ∅ [] = (inr lk, evs) →
  let r := interface_row h ip v lk i in
  match i !! "intf" ≫= last_neighbor cdp with
  | Some item =>
      (∃ name, i !! "intf" = Some name ∧ lk !! name = Some (neighbor_info item)) ∧
      neighbor_populated r ∧
      r !! "neighbor_device" = Some (item !! "destination_host") ∧
      r !! "neighbor_platform" = Some (item !! "platform") ∧
      r !! "neighbor_interface" = Some (item !! "remote_port")
  | None =>
      (∀ name, i !! "intf" = Some name → lk !! name = None) ∧
      neighbor_blank r ∧ ¬ neighbor_populated r ∧
      drop 9 (csv_cells r) = [EmptyString; EmptyString; EmptyString]
  end.
Proof.
  intros [Hall Hlk]%build_cdp_lookup_inr. cbv zeta.
  pose proof (interface_row_fields h ip v lk i) as (_&_&_&_&_&_&Hd&Hp&Hi).
  pose proof (interface_row_cells h ip v lk i) as Hcells.
  unfold neighbor_populated, neighbor_blank.
  rewrite Hd, Hp, Hi, Hcells. clear Hd Hp Hi Hcells.
  destruct (i !! "intf") as [name|] eqn:Hname; simpl.
  - specialize (Hlk name). rewrite lookup_empty in Hlk.
    destruct (last_neighbor cdp name) as [item|] eqn:Hlast; rewrite Hlk; simpl.
    + apply last_neighbor_Some in Hlast as [Hin _].
      eapply Forall_forall in Hall; [|exact Hin].
      destruct (neighbor_info_fields item) as (-> & -> & ->).
      unfold neighbor_complete in Hall. rewrite !Forall_cons in Hall.
      destruct Hall as (_ & [d ->] & _ & [pl ->] & [po ->] & _). simpl.
      split; [by eexists|]. split; [by eexists _, _, _|]. done.
    + rewrite !lookup_empty. split; [by intros ? [= <-]|].
      split; [done|]. split; [|done]. by intros (?&?&?&?&_).
  - rewrite !lookup_empty. split; [done|].
    split; [done|]. split; [|done]. by intros (?&?&?&?&_).
Qed.

(** ** The outcome of a device *)

Section Outcomes.
Variable ConnectHandler : base_device → session.
Variables (usr pwd enable : string).

Abbreviation sess := (the_session ConnectHandler usr pwd enable).
Abbreviation trace := (session_trace ConnectHandler usr pwd enable).
Abbreviation script := (iteration_script ConnectHandler usr pwd enable).
Abbreviation result := (iteration_result ConnectHandler usr pwd enable).
Abbreviation base := (make_base_device usr pwd enable).

Lemma iteration_script_trace ip :
  ∃ res tr, trace ip res tr ∧ result ip = inr tt ∧
    (device_task ConnectHandler usr pwd enable ip []).1 = inr tt ∧
    with_ConnectHandler ConnectHandler (base ip) (session_body ip) [] =
      (res, EvConnect (base ip) :: tr) ∧
    script ip =
      EvConnect (base ip) :: tr ++ handled ip res ++ [EvTaskDone; EvPbar].
Proof.
  destruct (with_block_trace ConnectHandler usr pwd enable ip)
    as (res & tr & Htr & Hrun).
  exists res, tr. unfold iteration_result, iteration_script.
  unfold device_worker_iteration, device_task, try_finally, try_except.
  rewrite Hrun. destruct res as [e|[]]; simpl.
  - rewrite handler_run. simpl. by rewrite <- !app_assoc.
  - by rewrite <- app_assoc.
Qed.

Lemma script_rows ip res tr :
  script ip =
    EvConnect (base ip) :: tr ++ handled ip res ++ [EvTaskDone; EvPbar] →
  rows_of (script ip) = rows_of tr ++ rows_of (handled ip res).
Proof.
  intros ->. simpl. rewrite !rows_of_app. simpl. by rewrite app_nil_r.
Qed.

(** The rows of an iteration: one failure row, one summary row, or one
    row for each interface record the device returned. *)
Lemma iteration_rows ip :
  (∃ st, failure_status st ∧ rows_of (script ip) = [failure_row ip st]) ∨
  (∃ v p, rows_of (script ip) = [summary_row (hostname_of v p) ip v]) ∨
  (∃ os commands v vs ifaces cdp evs p lk,
     connect (sess ip) = inr os ∧ COMMAND_MAP !! os = Some commands ∧
     fetch (sess ip) commands [] = (inr (v :: vs, ifaces, cdp), evs) ∧
     find_prompt (sess ip) = inr p ∧
     build_cdp_lookup cdp ∅ [] = (inr lk, []) ∧ ifaces ≠ [] ∧
     rows_of (script ip) =
       map (interface_row (hostname_of v p) ip v lk) ifaces).
Proof.
  destruct (iteration_script_trace ip) as (res & tr & Htr & _ & _ & _ & Hs).
  rewrite (script_rows ip res tr Hs). clear Hs.
  destruct Htr; rewrite ?rows_of_app, ?rows_of_rows;
    try erewrite fetch_no_rows by eassumption; simpl.
  - left. eexists. split; [apply handler_status_failure | done].
  - left. eexists. split; [by apply StUnsupported | done].
  - left. eexists. split; [apply handler_status_failure | done].
  - left. eexists. split; [apply StVersion | done].
  - left. eexists. split; [apply handler_status_failure | done].
  - left. eexists. split; [apply handler_status_failure | done].
  - right. left. by eexists _, _.
  - right. right. rewrite !app_nil_r. by eexists _, _, _, _, _, _, _, _, _.
Qed.

(** Two descriptions of the same run agree on what the device did. *)
Ltac merge H1 H2 :=
  rewrite H1 in H2;
  first [ discriminate H2 | injection H2; clear H2; intros; subst | clear H2 ].

Ltac same_path :=
  repeat match goal with
  | H1 : connect ?s = _, H2 : connect ?s = _ |- _ => merge H1 H2
  | H1 : COMMAND_MAP !! ?os = _, H2 : COMMAND_MAP !! ?os = _ |- _ =>
      merge H1 H2
  | H1 : fetch ?s ?c [] = _, H2 : fetch ?s ?c [] = _ |- _ => merge H1 H2
  | H1 : find_prompt ?s = _, H2 : find_prompt ?s = _ |- _ => merge H1 H2
  | H : ?x ≠ ?x |- _ => by destruct H
  end.

(** C1.  Every device a worker pops produces at least one row, and the rows
    of one device are of one kind: either all of them have status ['OK']
    (one summary row, or one row for each interface record) or there is
    exactly one row and it is a failure row (unsupported OS, authentication,
    timeout, version parse, or generic error).  If any row of a device has
    status ['OK'], all of them have. *)
Theorem device_rows_one_outcome ip :
  let rows := rows_of (script ip) in
  rows ≠ [] ∧
  ((Forall status_ok rows ∧
    ((∃ h v, rows = [summary_row h ip v]) ∨
     (∃ h v lk ifaces, ifaces ≠ [] ∧
        rows = map (interface_row h ip v lk) ifaces)))
   ∨ (∃ st, failure_status st ∧ st ≠ "OK" ∧ rows = [failure_row ip st])) ∧
  (∀ r1 r2, r1 ∈ rows → r2 ∈ rows → status_ok r1 → status_ok r2).
Proof.
  simpl.
  destruct (iteration_rows ip)
    as [(st & Hst & ->)
       |[(v & p & ->)
        |(os & c & v & vs & ifaces & cdp & evs & p & lk & _ & _ & _ & _ & _
            & Hne & ->)]].
  - split; [done|]. split.
    + right. exists st. eauto using failure_status_not_ok.
    + intros r1 r2 ->%list_elem_of_singleton ->%list_elem_of_singleton. done.
  - split; [done|]. split.
    + left. split; [|left; by eexists _, _].
      apply Forall_singleton. apply summary_row_fields.
    + intros r1 r2 ->%list_elem_of_singleton ->%list_elem_of_singleton. done.
  - assert (Forall status_ok
              (map (interface_row (hostname_of v p) ip v lk) ifaces)) as Hok.
    { apply Forall_map, Forall_true. intros i.
      by destruct (interface_row_fields (hostname_of v p) ip v lk i)
        as (_&_&_&_&?&_). }
    split; [by destruct ifaces|]. split.
    + left. split; [done|]. right. by eexists _, _, _, _.
    + intros r1 r2 _ H2 _. by eapply Forall_forall in Hok.
Qed.

(** C6.  The device session task never raises: the [try] statement returns
    for every device, and so does the whole iteration.  When the [with]
    statement raises [e], exactly one row is written for the device: status
    ['Authentication Failed'] for a [NetmikoAuthenticationException],
    ['Connection Timeout'] for a [NetmikoTimeoutException], and
    ['Error: ' + str(e)] for any other exception. *)
Theorem device_task_contains_exceptions ip :
  (device_task ConnectHandler usr pwd enable ip []).1 = inr tt ∧
  result ip = inr tt ∧
  ∀ e evs,
    with_ConnectHandler ConnectHandler (base ip) (session_body ip) [] =
      (inl e, evs) →
    rows_of (script ip) =
      [failure_row ip
         match e with
         | NetmikoAuthenticationException _ => "Authentication Failed"
         | NetmikoTimeoutException _ => "Connection Timeout"
         | _ => "Error: " +:+ exn_str e
         end].
Proof.
  destruct (iteration_script_trace ip)
    as (res & tr & Htr & Hres & Htask & Hrun & Hs).
  split; [done|]. split; [done|]. intros e evs He.
  rewrite Hrun in He. injection He as -> <-.
  rewrite (script_rows ip _ tr Hs). clear Hs Hrun.
  inversion Htr; subst; rewrite ?rows_of_app;
    try erewrite fetch_no_rows by eassumption; done.
Qed.

(** C7, with the status text of the script. When the detected OS is not a
    key of [COMMAND_MAP], the iteration consists of the connection, one
    failure row with status ['Unsupported OS: <family>'] (capital U, as the
    script writes it), the disconnect and the [finally] clause: no command
    is sent and the session is released before the iteration ends. *)
Theorem unsupported_os_row ip os :
  connect (sess ip) = inr os →
  COMMAND_MAP !! os = None →
  result ip = inr tt ∧
  script ip =
    [EvConnect (base ip);
     EvRow (failure_row ip ("Unsupported OS: " +:+ os));
     EvDisconnect; EvTaskDone; EvPbar].
Proof.
  intros Hc Hos.
  destruct (iteration_script_trace ip) as (res & tr & Htr & Hres & _ & _ & ->).
  split; [done|]. destruct Htr; same_path. done.
Qed.

(** C5, with the status text of the script. When the three commands return
    and the version answer is empty, the device gets exactly one row, a
    failure row with status ['Failed to parse version'] (the text the script
    writes), whatever the interface and neighbor commands returned; after
    the commands nothing happens but that row, the disconnect and the
    [finally] clause: no prompt is read and no neighbor lookup is built. *)
Theorem version_parse_failure_row ip os commands ifaces cdp evs :
  connect (sess ip) = inr os →
  COMMAND_MAP !! os = Some commands →
  fetch (sess ip) commands [] = (inr ([], ifaces, cdp), evs) →
  rows_of (script ip) = [failure_row ip "Failed to parse version"] ∧
  script ip =
    EvConnect (base ip) :: evs
      ++ [EvRow (failure_row ip "Failed to parse version");
          EvDisconnect; EvTaskDone; EvPbar].
Proof.
  intros Hc Hos Hf.
  destruct (iteration_script_trace ip) as (res & tr & Htr & Hres & _ & _ & Hs).
  rewrite (script_rows ip res tr Hs). rewrite Hs. clear Hs.
  destruct Htr; same_path.
  rewrite rows_of_app, (fetch_no_rows _ _ _ _ Hf). split; [done|].
  simpl. by rewrite <- app_assoc.
Qed.




(** C10.  The placeholder depends on the kind of row.  A row of a device
    whose status is not ['OK'] is a failure row and is written with ['N/A']
    in every column but the device address and the status.  An interface
    row without a neighbor match has status ['OK'], holds [None] in the
    three neighbor columns, and these are written as empty cells. *)
Theorem placeholders_by_row_kind ip r :
  r ∈ rows_of (script ip) →
  (¬ status_ok r →
     ∃ st, failure_status st ∧
       csv_cells r =
         ["N/A"; ip; "N/A"; "N/A"; st; "N/A"; "N/A"; "N/A"; "N/A"; "N/A";
          "N/A"; "N/A"]) ∧
  (is_Some (r !! "interface") → ¬ neighbor_populated r →
     status_ok r ∧ neighbor_blank r ∧
     drop 9 (csv_cells r) = [EmptyString; EmptyString; EmptyString]).
Proof.
  intros Hr.
  destruct (iteration_rows ip)
    as [(st & Hst & Hrows)
       |[(v & p & Hrows)
        |(os & c & v & vs & ifaces & cdp & evs & p & lk & Hc & Hos & Hf & Hp
            & Hb & Hne & Hrows)]];
    rewrite Hrows in Hr.
  - apply list_elem_of_singleton in Hr as ->. split.
    + intros _. exists st. split; [exact Hst | apply failure_row_cells].
    + rewrite failure_row_no_interface. intros Hif. by destruct Hif.
  - apply list_elem_of_singleton in Hr as ->.
    destruct (summary_row_fields (hostname_of v p) ip v) as (_&_&_&_&Hok&Hn).
    split; [intros Hno; by destruct Hno|]. rewrite Hn.
    intros Hif. by destruct Hif.
  - apply list_elem_of_In, in_map_iff in Hr as (i & <- & _).
    pose proof (interface_row_fields (hostname_of v p) ip v lk i)
      as (_&_&_&_&Hok&_).
    split; [intros Hno; by destruct Hno|]. intros _ Hnp.
    split; [exact Hok|].
    pose proof (interface_row_neighbor (hostname_of v p) ip v lk cdp [] i Hb)
      as Hn.
    cbv zeta in Hn. destruct (i !! "intf" ≫= last_neighbor cdp).
    + destruct Hn as (_ & Hpop & _). by destruct Hnp.
    + destruct Hn as (_ & Hblank & _ & Hcells).
      split; [exact Hblank | exact Hcells].
Qed.
End Outcomes.

(** ** The worker pool *)

Lemma in_flight_update (l : list pc) i p :
  l !! i = Some p →
  ∃ A B, concat (map pending l) = A ++ pending p ++ B ∧
    ∀ p', concat (map pending (<[i:=p']> l)) = A ++ pending p' ++ B.
Proof.
  intros Hi. exists (concat (map pending (take i l))),
    (concat (map pending (drop (S i) l))).
  pose proof (lookup_lt_Some _ _ _ Hi) as Hlt.
  split.
  - rewrite <- (take_drop_middle l i p Hi) at 1.
    by rewrite map_app, concat_app.
  - intros p'. rewrite insert_take_drop by done.
    by rewrite map_app, concat_app.
Qed.

Section PoolFacts.
Variable ConnectHandler : base_device → session.
Variables (usr pwd enable : string).

Abbreviation script := (iteration_script ConnectHandler usr pwd enable).
Abbreviation result := (iteration_result ConnectHandler usr pwd enable).
Abbreviation step := (step ConnectHandler usr pwd enable).
Abbreviation worker_step := (worker_step ConnectHandler usr pwd enable).
Abbreviation run := (run ConnectHandler usr pwd enable).

Lemma trace_no_task_done ip res tr :
  session_trace ConnectHandler usr pwd enable ip res tr →
  List.filter is_task_done tr = [].
Proof.
  assert (∀ evs, Forall is_send evs → List.filter is_task_done evs = [])
    as Hsend.
  { induction 1 as [|ev evs [cmd ->] _ IH]; [done | exact IH]. }
  destruct 1; rewrite ?List.filter_app;
    try erewrite (Hsend evs) by (eapply fetch_sends; eassumption);
    try done.
  simpl. rewrite app_nil_r. clear.
  induction ifaces as [|i ifaces IH]; [done | exact IH].
Qed.

(** Every iteration calls [task_done] exactly once. *)
Lemma one_task_done ip :
  length (List.filter is_task_done (script ip)) = 1.
Proof.
  destruct (iteration_script_trace ConnectHandler usr pwd enable ip)
    as (res & tr & Htr & _ & _ & _ & ->).
  simpl. rewrite !List.filter_app, (trace_no_task_done ip res tr Htr).
  by destruct res.
Qed.

Lemma iteration_returns ip : result ip = inr tt.
Proof.
  by destruct (iteration_script_trace ConnectHandler usr pwd enable ip)
    as (res & tr & _ & ? & _).
Qed.
End PoolFacts.

Lemma queue_inv_same devices s s' i p p' :
  queue_inv devices s → threads s !! i = Some p →
  threads s' = <[i:=p']> (threads s) →
  pending p' = pending p → thread_returns p' →
  work_queue s' = work_queue s →
  unfinished_tasks s' = unfinished_tasks s →
  done_log s' = done_log s →
  main_thread s' = main_thread s →
  queue_inv devices s'.
Proof.
  intros [Hc Hi Hj Ha] Hp Ht Hpend Hret Hq Hu Hd Hm.
  assert (in_flight s' = in_flight s) as Hfl.
  { unfold in_flight. rewrite Ht.
    destruct (in_flight_update _ _ _ Hp) as (A & B & -> & ->).
    by rewrite Hpend. }
  split; rewrite ?Hq, ?Hu, ?Hd, ?Hm, ?Hfl; try done.
  rewrite Ht. by apply Forall_insert.
Qed.

Lemma queue_inv_pop devices s s' i p p' ip :
  queue_inv devices s → threads s !! i = Some p →
  threads s' = <[i:=p']> (threads s) →
  pending p = [] → pending p' = [ip] → thread_returns p' →
  work_queue s = ip :: work_queue s' →
  unfinished_tasks s' = unfinished_tasks s →
  done_log s' = done_log s →
  main_thread s' = main_thread s →
  queue_inv devices s'.
Proof.
  intros [Hc Hi Hj Ha] Hp Ht Hpend Hpend' Hret Hq Hu Hd Hm.
  unfold in_flight in *.
  destruct (in_flight_update _ _ _ Hp) as (A & B & HA & HB).
  rewrite HA, Hpend, Hq in *. clear HA.
  split; unfold in_flight; rewrite ?Ht, ?HB, ?Hpend', ?Hu, ?Hd, ?Hm.
  - rewrite Hc. simpl. rewrite !length_app. simpl. lia.
  - rewrite Hi. solve_Permutation.
  - intros Hne. specialize (Hj Hne). rewrite Hc in Hj. simpl in Hj. lia.
  - by apply Forall_insert.
Qed.

Lemma queue_inv_task_done devices s s' i p p' ip :
  queue_inv devices s → threads s !! i = Some p →
  threads s' = <[i:=p']> (threads s) →
  pending p = ip :: pending p' → thread_returns p' →
  work_queue s' = work_queue s →
  unfinished_tasks s = S (unfinished_tasks s') →
  done_log s' = done_log s ++ [ip] →
  main_thread s' = main_thread s →
  queue_inv devices s'.
Proof.
  intros [Hc Hi Hj Ha] Hp Ht Hpend Hret Hq Hu Hd Hm.
  unfold in_flight in *.
  destruct (in_flight_update _ _ _ Hp) as (A & B & HA & HB).
  rewrite HA, Hpend in *. clear HA.
  split; unfold in_flight; rewrite ?Ht, ?HB, ?Hq, ?Hd, ?Hm.
  - rewrite Hu in Hc. rewrite !length_app in *. simpl in Hc. lia.
  - rewrite Hi. solve_Permutation.
  - intros Hne. specialize (Hj Hne). lia.
  - by apply Forall_insert.
Qed.

Section PoolInvariants.
Variable ConnectHandler : base_device → session.
Variables (usr pwd enable : string).

Abbreviation script := (iteration_script ConnectHandler usr pwd enable).
Abbreviation result := (iteration_result ConnectHandler usr pwd enable).
Abbreviation step := (step ConnectHandler usr pwd enable).
Abbreviation worker_step := (worker_step ConnectHandler usr pwd enable).
Abbreviation run := (run ConnectHandler usr pwd enable).

Lemma pending_nonempty_counter devices s i p ip rest :
  queue_inv devices s → threads s !! i = Some p →
  pending p = ip :: rest → unfinished_tasks s ≠ 0.
Proof.
  intros [Hc _ _ _] Hp Hpend. unfold in_flight in Hc.
  destruct (in_flight_update _ _ _ Hp) as (A & B & HA & _).
  rewrite HA, Hpend, !length_app in Hc. simpl in Hc. lia.
Qed.

Lemma queue_inv_worker_step devices s s' i p :
  queue_inv devices s → threads s !! i = Some p →
  worker_step i p s = Some s' → queue_inv devices s'.
Proof.
  intros Hinv Hp Hstep.
  assert (thread_returns p) as Hret.
  { destruct Hinv as [_ _ _ Ha]. by eapply Forall_lookup_1 in Ha. }
  destruct p as [| |ip sc res|cells ip sc res| |e]; simpl in Hstep.
  - (* the emptiness test *)
    destruct (work_queue s); injection Hstep as <-;
      by eapply (queue_inv_same _ s _ i AtCheck).
  - (* the blocking get *)
    destruct (work_queue s) as [|ip rest] eqn:Hq; [done|].
    injection Hstep as <-.
    eapply (queue_inv_pop _ s _ i AtGet _ ip); try done; simpl.
    + by rewrite one_task_done.
    + apply iteration_returns.
  - (* the iteration *)
    simpl in Hret. subst res.
    destruct sc as [|ev sc].
    { injection Hstep as <-. by eapply (queue_inv_same _ s _ i). }
    destruct ev; try (injection Hstep as <-; by eapply (queue_inv_same _ s _ i)).
    + destruct (lock s); [done|]. injection Hstep as <-.
      by eapply (queue_inv_same _ s _ i).
    + destruct (unfinished_tasks s) as [|n] eqn:Hu.
      { by eapply pending_nonempty_counter in Hinv. }
      injection Hstep as <-.
      by eapply (queue_inv_task_done _ s _ i _ _ ip).
  - (* inside writerow *)
    destruct cells; injection Hstep as <-;
      by eapply (queue_inv_same _ s _ i).
  - done.
  - done.
Qed.

Lemma queue_inv_step devices a s s' :
  queue_inv devices s → step a s = Some s' → queue_inv devices s'.
Proof.
  intros Hinv Hstep. destruct a as [|i]; simpl in Hstep.
  - unfold main_step in Hstep. destruct Hinv as [Hc Hi Hj Ha].
    destruct (main_thread s) eqn:Hm; [| |done].
    + destruct (unfinished_tasks s) eqn:Hu; [|done].
      injection Hstep as <-. split; simpl; done.
    + destruct (forallb terminated (threads s)); [|done].
      injection Hstep as <-.
      split; simpl; try done; intros _; apply Hj; congruence.
  - destruct (threads s !! i) as [p|] eqn:Hp; [|done].
    by eapply queue_inv_worker_step.
Qed.

Lemma queue_inv_init devices : queue_inv devices (main_init devices).
Proof.
  assert (∀ n, concat (map pending (replicate n AtCheck)) = []) as Hrep.
  { induction n as [|n IH]; [done | exact IH]. }
  assert (in_flight (main_init devices) = []) as Hfl by apply Hrep.
  split; rewrite ?Hfl; simpl.
  - lia.
  - by rewrite app_nil_r.
  - done.
  - apply Forall_replicate. exact I.
Qed.

Lemma queue_inv_run devices sched s :
  run sched (main_init devices) = Some s → queue_inv devices s.
Proof.
  assert (∀ s0, queue_inv devices s0 → run sched s0 = Some s →
                queue_inv devices s) as Hgen.
  { induction sched as [|a sched IH]; intros s0 Hinv Hrun; simpl in Hrun.
    - by injection Hrun as <-.
    - destruct (step a s0) as [s1|] eqn:Hstep; [|done].
      eapply IH; [|exact Hrun]. by eapply queue_inv_step. }
  apply Hgen, queue_inv_init.
Qed.

(** C8.  In every state the pool can reach: each device is waiting in the
    queue, in flight, or marked done, exactly once; the counter of
    unfinished tasks is the number of waiting plus in-flight devices; it is
    zero exactly when every device has been marked done; the main thread
    is past [work_queue.join()] only then; every iteration calls
    [task_done()] exactly once and returns; and no worker thread has been
    ended by an exception. *)
Theorem queue_counter_tracks_completion devices sched s :
  run sched (main_init devices) = Some s →
  devices ≡ₚ work_queue s ++ in_flight s ++ done_log s ∧
  unfinished_tasks s = length (work_queue s) + length (in_flight s) ∧
  (unfinished_tasks s = 0 ↔ done_log s ≡ₚ devices) ∧
  (main_thread s ≠ MainJoinQueue → done_log s ≡ₚ devices) ∧
  (∀ ip, length (List.filter is_task_done (script ip)) = 1 ∧
         result ip = inr tt) ∧
  Forall thread_returns (threads s).
Proof.
  intros [Hc Hi Hj Ha]%queue_inv_run.
  assert (unfinished_tasks s = 0 ↔ done_log s ≡ₚ devices) as Hiff.
  { split.
    - intros H0. rewrite H0 in Hc.
      destruct (work_queue s); [|simpl in Hc; lia].
      destruct (in_flight s); [|simpl in Hc; lia]. done.
    - intros Hperm. apply Permutation_length in Hi.
      apply Permutation_length in Hperm.
      rewrite !length_app in Hi. lia. }
  split; [done|]. split; [done|]. split; [done|].
  split; [intros Hm; by apply Hiff, Hj|].
  split; [|done].
  intros ip. split; [apply one_task_done | apply iteration_returns].
Qed.
End PoolInvariants.

Lemma sink_inv_quiet s s' i p p' lines partial :
  sink_inv s lines partial → threads s !! i = Some p →
  ¬ is_writing p → ¬ is_writing p' →
  threads s' = <[i:=p']> (threads s) →
  lock s' = lock s → csvfile s' = csvfile s →
  sink_inv s' lines partial.
Proof.
  intros [Hf Hl Hp Hx] Hi Hnw Hnw' Ht Hlk Hcsv.
  pose proof (lookup_lt_Some _ _ _ Hi) as Hlt.
  split; rewrite ?Hlk, ?Hcsv, ?Ht; try done.
  - destruct (lock s) as [j|] eqn:Hlock; [|done].
    destruct Hp as (cells & ip & sc & res & r & Hj & Hr).
    exists cells, ip, sc, res, r. split; [|done].
    rewrite list_lookup_insert_ne; [done|].
    intros <-. rewrite Hi in Hj. injection Hj as ->. by apply Hnw.
  - intros j q Hj Hq. destruct (decide (i = j)) as [<-|Hne].
    + rewrite list_lookup_insert_eq in Hj by done. injection Hj as <-. done.
    + rewrite list_lookup_insert_ne in Hj by done. by eapply Hx.
Qed.

Section SinkInvariant.
Variable ConnectHandler : base_device → session.
Variables (usr pwd enable : string).

Abbreviation step := (step ConnectHandler usr pwd enable).
Abbreviation worker_step := (worker_step ConnectHandler usr pwd enable).
Abbreviation run := (run ConnectHandler usr pwd enable).




Lemma sink_inv_init devices : sink_inv (main_init devices) [] [].
Proof.
  split; simpl; try done.
  intros j p [-> _]%lookup_replicate. done.
Qed.

End SinkInvariant.

(** From a hung state no schedule leads anywhere. *)
Lemma hung_forever ConnectHandler usr pwd enable s sched s' :
  hung ConnectHandler usr pwd enable s →
  run ConnectHandler usr pwd enable sched s = Some s' →
  s' = s ∧ main_thread s' ≠ MainDone.
Proof.
  intros [Hstuck Hmain] Hrun. destruct sched as [|a sched]; simpl in Hrun.
  - injection Hrun as <-. done.
  - by rewrite Hstuck in Hrun.
Qed.

(** ** The scenario *)

Module ScenarioFacts.
Import Scenario.

Abbreviation sess := (the_session provider "admin" "pw" "en").
Abbreviation ios := (
  {[ "version" := "show version";
     "interfaces" := "show ip interface brief";
     "cdp" := "show cdp neighbors detail" ]} : gmap string string).
Abbreviation sends :=
  [EvSend "show version"; EvSend "show ip interface brief";
   EvSend "show cdp neighbors detail"].

(** C2. Termination of the pool does not hold of the script. With the two
    devices of the scenario [main] starts [min(NUM_THREADS, 2) = 2] workers,
    and under the schedule [Scenario.schedule] the pool reaches a state in
    which the queue is empty, every device is marked done, worker 0 has
    exited and worker 1 is blocked in [work_queue.get()]: nobody can take a
    step, whatever is scheduled next, and the main thread waits in
    [thread.join()] for ever. *)
Theorem worker_blocks_on_drained_queue :
  length (threads start) = Nat.min NUM_THREADS (length devices) ∧
  ∃ s, go schedule = Some s ∧
    work_queue s = [] ∧ unfinished_tasks s = 0 ∧
    done_log s = devices ∧
    threads s = [Exited; AtGet] ∧
    main_thread s = MainJoinThreads ∧
    hung provider "admin" "pw" "en" s ∧
    ∀ sched s',
      run provider "admin" "pw" "en" sched s = Some s' →
      main_thread s' ≠ MainDone.
Proof.
  split; [reflexivity|].
  eexists. split; [vm_compute; reflexivity|].
  do 5 (split; [reflexivity|]).
  match goal with
  | |- hung _ _ _ _ ?s ∧ _ =>
      assert (hung provider "admin" "pw" "en" s) as Hhung
  end.
  { split; [|discriminate]. intros [|[|[|i]]]; reflexivity. }
  split; [exact Hhung|].
  intros sched s' Hrun. by eapply hung_forever.
Qed.




(** C5, counterexample.  The version answer of the device 10.0.0.4 is
    empty, and the row written for it does not have the status
    ['version parse failed']. *)
Lemma version_failure_status_differs :
  connect (sess "10.0.0.4") = inr "cisco_ios" ∧
  COMMAND_MAP !! "cisco_ios" = Some ios ∧
  fetch (sess "10.0.0.4") ios [] = (inr ([], [gi1; gi2], [neighbor]), sends) ∧
  ¬ ∃ r, rows "10.0.0.4" = [r] ∧
         r !! "status" = Some (Some "version parse failed").
Proof.
  do 3 (split; [reflexivity|]).
  assert (rows "10.0.0.4" =
            [failure_row "10.0.0.4" "Failed to parse version"]) as Hrows
    by reflexivity.
  rewrite Hrows. intros (r & [= <-] & Hst).
  rewrite failure_row_status in Hst. discriminate Hst.
Qed.

(** C5, witness: [version_parse_failure_row] at the device 10.0.0.4. *)
Lemma version_parse_failure_row_witness :
  connect (sess "10.0.0.4") = inr "cisco_ios" ∧
  COMMAND_MAP !! "cisco_ios" = Some ios ∧
  fetch (sess "10.0.0.4") ios [] = (inr ([], [gi1; gi2], [neighbor]), sends) ∧
  rows "10.0.0.4" = [failure_row "10.0.0.4" "Failed to parse version"].
Proof.
  do 3 (split; [reflexivity|]).
  apply (version_parse_failure_row provider "admin" "pw" "en" "10.0.0.4"
           "cisco_ios" ios [gi1; gi2] [neighbor] sends
           eq_refl eq_refl eq_refl).
Defined.

(** C6, witness: [device_task_contains_exceptions] at the device 10.0.0.2,
    which rejects the credentials. *)
Lemma device_task_contains_exceptions_witness :
  with_ConnectHandler provider
    (make_base_device "admin" "pw" "en" "10.0.0.2") (session_body "10.0.0.2")
    [] =
    (inl (NetmikoAuthenticationException "Authentication failed"),
     [EvConnect (make_base_device "admin" "pw" "en" "10.0.0.2")]) ∧
  rows "10.0.0.2" = [failure_row "10.0.0.2" "Authentication Failed"].
Proof.
  split; [reflexivity|].
  destruct (device_task_contains_exceptions provider "admin" "pw" "en"
              "10.0.0.2") as (_ & _ & H).
  exact (H _ _ eq_refl).
Defined.

(** C7, counterexample.  The device 10.0.0.3 reports an OS that is not in
    [COMMAND_MAP], and the row written for it does not have the status
    ['unsupported OS: juniper_junos']. *)
Lemma unsupported_status_differs :
  connect (sess "10.0.0.3") = inr "juniper_junos" ∧
  COMMAND_MAP !! "juniper_junos" = None ∧
  ¬ ∃ r, rows "10.0.0.3" = [r] ∧
         r !! "status" = Some (Some "unsupported OS: juniper_junos").
Proof.
  do 2 (split; [reflexivity|]).
  assert (rows "10.0.0.3" =
            [failure_row "10.0.0.3" "Unsupported OS: juniper_junos"])
    as Hrows by reflexivity.
  rewrite Hrows. intros (r & [= <-] & Hst).
  rewrite failure_row_status in Hst. discriminate Hst.
Qed.

(** C7, witness: [unsupported_os_row] at the device 10.0.0.3. *)
Lemma unsupported_os_row_witness :
  connect (sess "10.0.0.3") = inr "juniper_junos" ∧
  COMMAND_MAP !! "juniper_junos" = None ∧
  script "10.0.0.3" =
    [EvConnect (make_base_device "admin" "pw" "en" "10.0.0.3");
     EvRow (failure_row "10.0.0.3" "Unsupported OS: juniper_junos");
     EvDisconnect; EvTaskDone; EvPbar].
Proof.
  do 2 (split; [reflexivity|]).
  apply (unsupported_os_row provider "admin" "pw" "en" "10.0.0.3"
           "juniper_junos" eq_refl eq_refl).
Defined.

(** C8, witness: [queue_counter_tracks_completion] after worker 0 has
    tested the queue and popped the first device. *)
Lemma queue_counter_tracks_completion_witness :
  ∃ s, go [Worker 0; Worker 0] = Some s ∧
    devices ≡ₚ work_queue s ++ in_flight s ++ done_log s ∧
    unfinished_tasks s = length (work_queue s) + length (in_flight s).
Proof.
  assert (∃ s, go [Worker 0; Worker 0] = Some s) as [s Hrun]
    by (eexists; vm_compute; reflexivity).
  exists s. split; [exact Hrun|].
  pose proof (queue_counter_tracks_completion provider "admin" "pw" "en"
                devices [Worker 0; Worker 0] s Hrun) as (H1 & H2 & _).
  split; [exact H1 | exact H2].
Defined.


(** C10, witness: [placeholders_by_row_kind] at the second row of the
    device 10.0.0.1, whose interface has no neighbor. *)
Lemma placeholders_by_row_kind_witness :
  let r := default ∅ (rows "10.0.0.1" !! 1) in
  r ∈ rows "10.0.0.1" ∧ is_Some (r !! "interface") ∧
  ¬ neighbor_populated r ∧
  drop 9 (csv_cells r) = [EmptyString; EmptyString; EmptyString].
Proof.
  cbv zeta.
  assert (default ∅ (rows "10.0.0.1" !! 1) ∈ rows "10.0.0.1") as Hin.
  { apply (list_elem_of_lookup_2 _ 1). reflexivity. }
  assert (is_Some (default ∅ (rows "10.0.0.1" !! 1) !! "interface")) as Hif.
  { eexists. reflexivity. }
  assert (¬ neighbor_populated (default ∅ (rows "10.0.0.1" !! 1))) as Hnp.
  { assert (default ∅ (rows "10.0.0.1" !! 1) !! "neighbor_device" = Some None)
    as Hnone by (vm_compute; reflexivity).
  intros (d & _ & _ & Hd & _). rewrite Hnone in Hd. discriminate Hd. }
  split; [exact Hin|]. split; [exact Hif|]. split; [exact Hnp|].
  apply (placeholders_by_row_kind provider "admin" "pw" "en" "10.0.0.1" _ Hin);
    assumption.
Defined.
End ScenarioFacts.

(** * Further properties of the code *)

(** ** The command catalog *)

Lemma supported_commands os commands :
  COMMAND_MAP !! os = Some commands →
  command_list commands =
    ["show version"; "show ip interface brief"; "show cdp neighbors detail"] ∧
    os ≠ "cisco_asa" ∧ commands !! "cdp" = Some "show cdp neighbors detail" ∧
    commands !! "version" = Some "show version" ∧
    commands !! "interfaces" = Some "show ip interface brief"
  ∨ command_list commands = ["show version"; "show interface ip brief"] ∧
    os = "cisco_asa" ∧ commands !! "cdp" = None ∧
    commands !! "version" = Some "show version" ∧
    commands !! "interfaces" = Some "show interface ip brief".
Proof.
  unfold COMMAND_MAP. intros H.
  apply lookup_insert_Some in H as [[<- <-]|[_ H]].
  { left. repeat split. discriminate. }
  apply lookup_insert_Some in H as [[<- <-]|[_ H]].
  { left. repeat split. discriminate. }
  apply lookup_singleton_Some in H as [<- <-].
  right. repeat split.
Qed.

Ltac run_fetch H :=
  unfold fetch, send, bind, subscript, emit, lift, ret, raise in H;
  simpl in H.


(** What the commands of an ASA return: no neighbor data. *)
Lemma fetch_asa commands s vd ifaces cdp evs :
  COMMAND_MAP !! "cisco_asa" = Some commands →
  fetch s commands [] = (inr (vd, ifaces, cdp), evs) →
  cdp = [] ∧ evs = [EvSend "show version"; EvSend "show interface ip brief"].
Proof.
  intros Hos Hf.
  destruct (supported_commands _ commands Hos)
    as [(_ & Hne & _)|(Hl & _ & Hc & Hv & Hi)]; [done|].
  run_fetch Hf; rewrite Hv, Hi, Hc in Hf.
  destruct (send_command s "show version"); [done|].
  destruct (send_command s "show interface ip brief"); [done|].
  by injection Hf as <- <- <- <-.
Qed.

(** The commands an ASA is sent, whatever it answers. *)
Lemma fetch_asa_sends commands s res evs cmd :
  COMMAND_MAP !! "cisco_asa" = Some commands →
  fetch s commands [] = (res, evs) → EvSend cmd ∈ evs →
  cmd = "show version" ∨ cmd = "show interface ip brief".
Proof.
  intros Hos Hf Hin.
  destruct (supported_commands _ commands Hos)
    as [(_ & Hne & _)|(Hl & _ & Hc & Hv & Hi)]; [done|].
  run_fetch Hf; rewrite Hv, Hi, Hc in Hf.
  assert (EvSend cmd ∈ [EvSend "show version";
                        EvSend "show interface ip brief"]) as Hin'.
  { destruct (send_command s "show version").
    { injection Hf as <- <-. apply list_elem_of_singleton in Hin as ->.
      apply elem_of_cons. by left. }
    destruct (send_command s "show interface ip brief");
      by injection Hf as <- <-. }
  rewrite !elem_of_cons in Hin'.
  destruct Hin' as [[= ->]|[[= ->]|Hn]]; [by left | by right|].
  by apply not_elem_of_nil in Hn.
Qed.

Lemma after_disconnect_sends evs rest :
  Forall is_send evs → after_disconnect (evs ++ rest) = after_disconnect rest.
Proof. induction 1 as [|ev evs [cmd ->] _ IH]; [done | exact IH]. Qed.

Lemma after_disconnect_rows {A} (f : A → row) l rest :
  after_disconnect (map (λ x, EvRow (f x)) l ++ rest) = after_disconnect rest.
Proof. induction l as [|x l IH]; [done | exact IH]. Qed.

Lemma count_sends (P : event → bool) evs :
  (∀ cmd, P (EvSend cmd) = false) →
  Forall is_send evs → List.filter P evs = [].
Proof.
  intros HP. induction 1 as [|ev evs [cmd ->] _ IH]; [done|].
  simpl. by rewrite HP.
Qed.

Lemma count_rows {A} (P : event → bool) (f : A → row) l :
  (∀ r, P (EvRow r) = false) →
  List.filter P (map (λ x, EvRow (f x)) l) = [].
Proof. intros HP. induction l as [|x l IH]; [done|]. simpl. by rewrite HP. Qed.

Lemma interface_row_own_fields h ip (v : record) lk (i : record) :
  interface_row h ip v lk i !! "interface_ip" = Some (i !! "ipaddr") ∧
  interface_row h ip v lk i !! "interface_status" = Some (i !! "status") ∧
  interface_row h ip v lk i !! "protocol_status" = Some (i !! "proto").
Proof.
  unfold interface_row.
  generalize (cdp_get lk (i !! "intf") !! "neighbor")
    (cdp_get lk (i !! "intf") !! "neighbor_platform")
    (cdp_get lk (i !! "intf") !! "neighbor_port")
    (i !! "intf") (i !! "ipaddr") (i !! "status") (i !! "proto")
    (v !! "hardware") (v !! "version").
  intros. repeat split.
Qed.

Lemma lookup_map {A B} (f : A → B) (l : list A) i :
  map f l !! i = f <$> l !! i.
Proof. revert i. induction l as [|x l IH]; intros [|i]; simpl; auto. Qed.

Lemma rows_of_interfaces {A} (f : A → row) (l : list A) ip :
  rows_of ([EvPrompt] ++ map (λ x, EvRow (f x)) l ++ [EvDisconnect])
    ++ rows_of (handled ip (inr tt)) = map f l.
Proof.
  change (rows_of (map (λ x, EvRow (f x)) l ++ [EvDisconnect]) ++ [] = map f l).
  by rewrite rows_of_app, rows_of_rows, !app_nil_r.
Qed.

Lemma summary_row_cells h ip (v : record) :
  csv_cells (summary_row h ip v) =
    [h; ip; cell_text (v !! "hardware"); cell_text (v !! "version"); "OK";
     "N/A"; "N/A"; "N/A"; "N/A"; "N/A"; "N/A"; "N/A"].
Proof.
  unfold summary_row. generalize (v !! "hardware") (v !! "version").
  intros. reflexivity.
Qed.

Section MoreOutcomes.
Variable ConnectHandler : base_device → session.
Variables (usr pwd enable : string).

Abbreviation sess := (the_session ConnectHandler usr pwd enable).
Abbreviation trace := (session_trace ConnectHandler usr pwd enable).
Abbreviation script := (iteration_script ConnectHandler usr pwd enable).
Abbreviation base := (make_base_device usr pwd enable).

Ltac agree H1 H2 :=
  rewrite H1 in H2;
  first [ discriminate H2 | injection H2; clear H2; intros; subst | clear H2 ].

Ltac one_path :=
  repeat match goal with
  | H1 : connect ?s = _, H2 : connect ?s = _ |- _ => agree H1 H2
  | H1 : COMMAND_MAP !! ?os = _, H2 : COMMAND_MAP !! ?os = _ |- _ =>
      agree H1 H2
  | H1 : fetch ?s ?c [] = _, H2 : fetch ?s ?c [] = _ |- _ => agree H1 H2
  | H1 : find_prompt ?s = _, H2 : find_prompt ?s = _ |- _ => agree H1 H2
  | H : ?x ≠ ?x |- _ => by destruct H
  end.

(** X2.  A device detected as ['cisco_asa'] is only ever sent
    ['show version'] and ['show interface ip brief'], never a cdp command,
    and each of its interface rows has [None] in the three neighbor fields,
    written as empty cells. *)
Theorem asa_rows_have_no_neighbor ip :
  connect (sess ip) = inr "cisco_asa" →
  (∀ cmd, EvSend cmd ∈ script ip →
     cmd = "show version" ∨ cmd = "show interface ip brief") ∧
  (∀ r, r ∈ rows_of (script ip) → is_Some (r !! "interface") →
     neighbor_blank r ∧ drop 9 (csv_cells r) = [EmptyString; EmptyString; EmptyString]).
Proof.
  intros Hc.
  assert (∀ c res evs cmd,
            COMMAND_MAP !! "cisco_asa" = Some c →
            fetch (sess ip) c [] = (res, evs) → EvSend cmd ∈ evs →
            cmd = "show version" ∨ cmd = "show interface ip brief") as Hsent
    by (intros c res evs cmd; apply fetch_asa_sends).
  split.
  - intros cmd Hin.
    destruct (iteration_script_trace ConnectHandler usr pwd enable ip)
      as (res & tr & Htr & _ & _ & _ & Hs).
    rewrite Hs in Hin. clear Hs.
    assert (EvSend cmd ∈ tr) as Hin'.
    { rewrite elem_of_cons, !elem_of_app in Hin.
      destruct Hin as [?|[?|[Hh|Hf]]]; [done|done| |].
      - destruct res; simpl in Hh; [|by apply not_elem_of_nil in Hh].
        by apply list_elem_of_singleton in Hh.
      - rewrite !elem_of_cons in Hf. destruct Hf as [?|[?|Hn]]; [done|done|].
        by apply not_elem_of_nil in Hn. }
    clear Hin. destruct Htr; one_path;
      rewrite ?elem_of_app, ?elem_of_cons in Hin';
      repeat match goal with
      | H : _ ∨ _ |- _ => destruct H as [H|H]
      | H : EvSend _ = _ |- _ => discriminate H
      | H : _ ∈ [] |- _ => by apply not_elem_of_nil in H
      | H : _ ∈ map _ _ |- _ =>
          apply list_elem_of_In, in_map_iff in H as (? & [=] & _)
      end;
      try (eapply Hsent; eassumption).
  - intros r Hr Hif.
    destruct (iteration_rows ConnectHandler usr pwd enable ip)
      as [(st & _ & Hrows)
         |[(v & p & Hrows)
          |(os & c & v & vs & ifaces & cdp & evs & p & lk & Hc' & Hos & Hf & Hp
              & Hb & Hne & Hrows)]];
      rewrite Hrows in Hr.
    + apply list_elem_of_singleton in Hr as ->.
      rewrite failure_row_no_interface in Hif. by destruct Hif.
    + apply list_elem_of_singleton in Hr as ->.
      destruct (summary_row_fields (hostname_of v p) ip v) as (_&_&_&_&_&Hn).
      rewrite Hn in Hif. by destruct Hif.
    + apply list_elem_of_In, in_map_iff in Hr as (i & <- & _).
      rewrite Hc in Hc'. injection Hc' as <-.
      destruct (fetch_asa _ _ _ _ _ _ Hos Hf) as [-> _].
      pose proof (interface_row_neighbor (hostname_of v p) ip v lk [] [] i Hb)
        as Hn.
      cbv zeta in Hn.
      assert (i !! "intf" ≫= last_neighbor [] = None) as Hnone
        by (by destruct (i !! "intf")).
      rewrite Hnone in Hn. destruct Hn as (_ & Hblank & _ & Hcells).
      split; [exact Hblank | exact Hcells].
Qed.

(** X3.  The session of an iteration: [ConnectHandler] is called once,
    first, with the device dictionary of that address.  The session is
    disconnected exactly once when it was opened and never when opening
    failed; nothing is sent and no prompt is read after the disconnect; and
    when opening failed nothing is sent at all. *)
Theorem session_released_once ip :
  (∃ rest, script ip = EvConnect (base ip) :: rest ∧
           List.filter is_connect rest = []) ∧
  length (List.filter is_disconnect (script ip)) =
    match connect (sess ip) with inl _ => 0 | inr _ => 1 end ∧
  List.filter uses_session (after_disconnect (script ip)) = [] ∧
  (∀ e, connect (sess ip) = inl e →
        List.filter uses_session (script ip) = []).
Proof.
  destruct (iteration_script_trace ConnectHandler usr pwd enable ip)
    as (res & tr & Htr & _ & _ & _ & ->).
  assert (∀ P, (∀ cmd, P (EvSend cmd) = false) →
            ∀ c r evs, fetch (sess ip) c [] = (r, evs) →
            List.filter P evs = []) as Hsends.
  { intros P HP c r evs Hf. eapply count_sends, fetch_sends; eassumption. }
  split; [|split; [|split]].
  - eexists. split; [reflexivity|].
    destruct Htr; rewrite !List.filter_app;
      try erewrite (Hsends is_connect) by (done || eassumption);
      try (by destruct res); try done.
    by rewrite count_rows by done.
  - assert (∀ h, List.filter is_disconnect
                (EvConnect (base ip) :: tr ++ h ++ [EvTaskDone; EvPbar]) =
              List.filter is_disconnect tr ++ List.filter is_disconnect h)
      as ->.
    { intros h. simpl. rewrite !List.filter_app. simpl. by rewrite app_nil_r. }
    assert (List.filter is_disconnect (handled ip res) = []) as ->
      by (by destruct res).
    rewrite app_nil_r.
    destruct Htr;
      repeat match goal with
      | H : connect _ = _ |- _ => rewrite H; clear H
      end;
      rewrite ?List.filter_app;
      try erewrite (Hsends is_disconnect) by (done || eassumption);
      try done.
    by rewrite count_rows by done.
  - destruct Htr; simpl;
      rewrite <- ?app_assoc;
      try (erewrite after_disconnect_sends by (eapply fetch_sends; eassumption));
      try done.
    simpl. rewrite <- app_assoc, after_disconnect_rows. done.
  - intros e He. destruct Htr; one_path. done.
Qed.

(** X4.  When the three outputs are fetched and the version output has a
    record, the prompt is read from the device even if the record has a
    hostname (the default of [dict.get] is evaluated eagerly); and if
    reading the prompt raises, the device gets one failure row although its
    outputs were complete. *)
Theorem prompt_is_always_read ip os commands v vs ifaces cdp evs :
  connect (sess ip) = inr os →
  COMMAND_MAP !! os = Some commands →
  fetch (sess ip) commands [] = (inr (v :: vs, ifaces, cdp), evs) →
  EvPrompt ∈ script ip ∧
  ∀ e, find_prompt (sess ip) = inl e →
    rows_of (script ip) = [failure_row ip (handler_status e)].
Proof.
  intros Hc Hos Hf.
  destruct (iteration_script_trace ConnectHandler usr pwd enable ip)
    as (res & tr & Htr & _ & _ & _ & Hs).
  split.
  - rewrite Hs. clear Hs. apply elem_of_cons. right.
    apply elem_of_app. left.
    destruct Htr; one_path; apply elem_of_app; right;
      apply elem_of_cons; by left.
  - intros e He. rewrite (script_rows _ _ _ _ ip res tr Hs). clear Hs.
    destruct Htr; one_path.
    rewrite rows_of_app, (fetch_no_rows _ _ _ _ Hf). done.
Qed.


Ltac lookup_built :=
  match goal with
  | H : build_cdp_lookup _ _ _ = (inl _, _) |- _ =>
      by apply build_cdp_lookup_inl in H
  end.

(** X6.  On the success path the [k]-th interface record gives the
    [k]-th row of the device: rows follow the order of the parsed interface
    output, and the four interface columns are the record's [intf],
    [ipaddr], [status] and [proto], [None] where the record lacks the key,
    written as an empty cell. *)
Theorem interface_rows_in_order ip os commands v vs ifaces cdp evs p k iface :
  connect (sess ip) = inr os →
  COMMAND_MAP !! os = Some commands →
  fetch (sess ip) commands [] = (inr (v :: vs, ifaces, cdp), evs) →
  find_prompt (sess ip) = inr p →
  Forall neighbor_complete cdp →
  ifaces !! k = Some iface →
  ∃ r, rows_of (script ip) !! k = Some r ∧
    r !! "interface" = Some (iface !! "intf") ∧
    r !! "interface_ip" = Some (iface !! "ipaddr") ∧
    r !! "interface_status" = Some (iface !! "status") ∧
    r !! "protocol_status" = Some (iface !! "proto") ∧
    take 4 (drop 5 (csv_cells r)) =
      [cell_text (iface !! "intf"); cell_text (iface !! "ipaddr");
       cell_text (iface !! "status"); cell_text (iface !! "proto")].
Proof.
  intros Hc Hos Hf Hp Hall Hk.
  destruct (iteration_script_trace ConnectHandler usr pwd enable ip)
    as (res & tr & Htr & _ & _ & _ & Hs).
  rewrite (script_rows _ _ _ _ ip res tr Hs). clear Hs.
  destruct Htr; one_path; try lookup_built;
    try (rewrite lookup_nil in Hk; discriminate Hk).
  rewrite rows_of_app, (fetch_no_rows _ _ _ _ Hf), app_nil_l.
  rewrite rows_of_interfaces.
  eexists. split.
  { rewrite lookup_map, Hk. reflexivity. }
  cbv beta.
  match goal with
  | |- context [interface_row ?h ?ip ?v ?lk ?i] =>
      destruct (interface_row_fields h ip v lk i) as (_&_&_&_&_&Hn&_);
      destruct (interface_row_own_fields h ip v lk i) as (Ha&Hb&Hd);
      rewrite (interface_row_cells h ip v lk i)
  end.
  repeat split; assumption.
Qed.

(** X7.  A device that answers but has no interface record gets exactly
    one summary row: hostname, address, hardware, version and ['OK'], and
    ['N/A'] in the seven interface and neighbor columns, which the row
    dictionary does not hold. *)
Theorem summary_row_placeholders ip os commands v vs cdp evs p :
  connect (sess ip) = inr os →
  COMMAND_MAP !! os = Some commands →
  fetch (sess ip) commands [] = (inr (v :: vs, [], cdp), evs) →
  find_prompt (sess ip) = inr p →
  Forall neighbor_complete cdp →
  map csv_cells (rows_of (script ip)) =
    [[hostname_of v p; ip; cell_text (v !! "hardware");
      cell_text (v !! "version"); "OK";
      "N/A"; "N/A"; "N/A"; "N/A"; "N/A"; "N/A"; "N/A"]].
Proof.
  intros Hc Hos Hf Hp Hall.
  destruct (iteration_script_trace ConnectHandler usr pwd enable ip)
    as (res & tr & Htr & _ & _ & _ & Hs).
  rewrite (script_rows _ _ _ _ ip res tr Hs). clear Hs.
  destruct Htr; one_path; try lookup_built.
  rewrite rows_of_app, (fetch_no_rows _ _ _ _ Hf). simpl.
  by rewrite summary_row_cells.
Qed.
End MoreOutcomes.

(** ** White space and hash signs *)












(** ** Loading the device file *)




Lemma sum_list_update (f : pc → nat) (l : list pc) i p p' :
  l !! i = Some p →
  sum_list (map f (<[i:=p']> l)) + f p = sum_list (map f l) + f p'.
Proof.
  revert i. induction l as [|x l IH]; intros [|i] Hi; simpl in *; try done.
  - injection Hi as ->. lia.
  - specialize (IH i Hi). lia.
Qed.

Section Termination.
Variable ConnectHandler : base_device → session.
Variables (usr pwd enable : string).

Abbreviation step := (step ConnectHandler usr pwd enable).
Abbreviation worker_step := (worker_step ConnectHandler usr pwd enable).
Abbreviation run := (run ConnectHandler usr pwd enable).
Abbreviation budget := (steps_left ConnectHandler usr pwd enable).

Lemma worker_step_decreases i p s s' :
  threads s !! i = Some p → worker_step i p s = Some s' →
  budget s' < budget s.
Proof.
  intros Hp Hstep. unfold steps_left.
  pose proof (λ p', sum_list_update thread_steps (threads s) i p p' Hp) as Hsum.
  destruct p as [| |ip sc res|cells ip sc res| |e]; simpl in Hstep.
  - destruct (work_queue s) eqn:Hq; injection Hstep as <-; simpl;
      [specialize (Hsum Exited)|specialize (Hsum AtGet)];
      rewrite ?Hq; simpl in *; lia.
  - destruct (work_queue s) as [|ip rest] eqn:Hq; [done|].
    injection Hstep as <-. simpl.
    specialize (Hsum (Running ip (iteration_script ConnectHandler usr pwd enable ip)
                        (iteration_result ConnectHandler usr pwd enable ip))).
    unfold device_steps at 2. simpl in *. lia.
  - destruct sc as [|ev sc].
    { destruct res; injection Hstep as <-; simpl;
        [specialize (Hsum (Crashed e))|specialize (Hsum AtCheck)];
        simpl in *; lia. }
    destruct ev;
      try (injection Hstep as <-; simpl;
           specialize (Hsum (Running ip sc res)); simpl in *; lia).
    + destruct (lock s); [done|]. injection Hstep as <-. simpl.
      specialize (Hsum (Writing (csv_cells r) ip sc res)). simpl in *. lia.
    + destruct (unfinished_tasks s); injection Hstep as <-; simpl.
      * specialize (Hsum (Crashed
          (ValueError "task_done() called too many times"))).
        simpl in *. lia.
      * specialize (Hsum (Running ip sc res)). simpl in *. lia.
  - destruct cells as [|c cells]; injection Hstep as <-; simpl.
    + specialize (Hsum (Running ip sc res)). simpl in *. lia.
    + specialize (Hsum (Writing cells ip sc res)). simpl in *. lia.
  - done.
  - done.
Qed.

Lemma step_decreases a s s' :
  step a s = Some s' → budget s' < budget s.
Proof.
  destruct a as [|i]; simpl.
  - unfold main_step, steps_left.
    destruct (main_thread s) eqn:Hm.
    + destruct (unfinished_tasks s); [|done]. intros [= <-]. simpl. lia.
    + destruct (forallb _ _); [|done]. intros [= <-]. simpl. lia.
    + done.
  - destruct (threads s !! i) as [p|] eqn:Hp; [|done].
    by apply worker_step_decreases.
Qed.

Lemma run_decreases sched s s' :
  run sched s = Some s' → (length sched + budget s' ≤ budget s)%nat.
Proof.
  revert s. induction sched as [|a sched IH]; intros s Hrun; simpl in Hrun.
  - injection Hrun as <-. simpl. lia.
  - destruct (step a s) as [s1|] eqn:Hstep; [|done].
    apply step_decreases in Hstep. apply IH in Hrun. simpl. lia.
Qed.

Lemma budget_init devices :
  budget (main_init devices) =
    2 + 2 * Nat.min NUM_THREADS (length devices)
      + sum_list (map (device_steps ConnectHandler usr pwd enable) devices).
Proof.
  unfold steps_left, main_init.
  cbn [main_thread threads work_queue main_steps].
  generalize (Nat.min NUM_THREADS (length devices)). intros n.
  assert (sum_list (map thread_steps (replicate n AtCheck)) = 2 * n) as ->;
    [|done].
  induction n as [|n IH]; [done|]. simpl in *. lia.
Qed.

(** X11.  No run of the pool is longer than a bound fixed by the input:
    two steps of [main], two for each worker, and for each device the
    steps of its iteration plus three.  So the pool cannot run for ever:
    it ends or it blocks. *)
Theorem runs_are_bounded devices sched s :
  run sched (main_init devices) = Some s →
  (length sched ≤
     2 + 2 * Nat.min NUM_THREADS (length devices)
       + sum_list (map (device_steps ConnectHandler usr pwd enable) devices))%nat.
Proof.
  intros Hrun%run_decreases. rewrite budget_init in Hrun. lia.
Qed.
End Termination.

Lemma in_flight_length (l : list pc) :
  length (concat (map pending l)) =
    sum_list (map (λ p, length (pending p)) l).
Proof.
  induction l as [|p l IH]; simpl; [done|]. by rewrite length_app, IH.
Qed.

Section PoolInvariant.
Variable ConnectHandler : base_device → session.
Variables (usr pwd enable : string).

Abbreviation script := (iteration_script ConnectHandler usr pwd enable).
Abbreviation step := (step ConnectHandler usr pwd enable).
Abbreviation worker_step := (worker_step ConnectHandler usr pwd enable).
Abbreviation run := (run ConnectHandler usr pwd enable).

Lemma one_pbar ip : length (List.filter is_pbar (script ip)) = 1.
Proof.
  destruct (iteration_script_trace ConnectHandler usr pwd enable ip)
    as (res & tr & Htr & _ & _ & _ & ->).
  assert (List.filter is_pbar tr = []) as Htr'.
  { destruct Htr; rewrite ?List.filter_app;
      try erewrite (count_sends is_pbar) by (done || eapply fetch_sends; eassumption);
      try done.
    by rewrite count_rows by done. }
  simpl. rewrite !List.filter_app, Htr'. by destruct res.
Qed.

(** A step of worker [i] from [p] to [p'] that leaves queue, counters and
    main thread alone. *)
Lemma pool_inv_same devices s s' i p p' :
  pool_inv devices s → threads s !! i = Some p →
  threads s' = <[i:=p']> (threads s) →
  p' ≠ Exited → terminated p = false →
  length (pending p') = length (pending p) → pbar_due p' = pbar_due p →
  work_queue s' = work_queue s → done_log s' = done_log s →
  pbar s' = pbar s → main_thread s' = main_thread s →
  pool_inv devices s'.
Proof.
  intros [Ht Hf Hx Hd Hp] Hi Hth Hne Hterm Hpend Hdue Hq Hdl Hpb Hm.
  pose proof (lookup_lt_Some _ _ _ Hi) as Hlt.
  split; rewrite ?Hq, ?Hdl, ?Hpb, ?Hm.
  - by rewrite Hth, length_insert.
  - done.
  - intros [j Hj]. apply Hx. rewrite Hth in Hj.
    destruct (decide (i = j)) as [<-|Hij].
    + rewrite list_lookup_insert_eq in Hj by done. congruence.
    + rewrite list_lookup_insert_ne in Hj by done. by exists j.
  - intros Hdone. specialize (Hd Hdone).
    rewrite forallb_forall in Hd.
    assert (In p (threads s)) as Hin
      by (apply list_elem_of_In; by eapply list_elem_of_lookup_2).
    apply Hd in Hin. congruence.
  - unfold in_flight in *. rewrite in_flight_length in *. rewrite Hth.
    pose proof (sum_list_update (λ p, length (pending p)) _ i p p' Hi).
    pose proof (sum_list_update pbar_due _ i p p' Hi).
    simpl in *. lia.
Qed.
End PoolInvariant.

Section PoolInvariantSteps.
Variable ConnectHandler : base_device → session.
Variables (usr pwd enable : string).

Abbreviation script := (iteration_script ConnectHandler usr pwd enable).
Abbreviation step := (step ConnectHandler usr pwd enable).
Abbreviation worker_step := (worker_step ConnectHandler usr pwd enable).
Abbreviation run := (run ConnectHandler usr pwd enable).

Ltac same_step :=
  eapply pool_inv_same;
    [ eassumption | eassumption | simpl; reflexivity | | | | | | | | ];
    simpl; (done || reflexivity).

Lemma pool_inv_worker_step devices s s' i p :
  queue_inv devices s → pool_inv devices s → threads s !! i = Some p →
  worker_step i p s = Some s' → pool_inv devices s'.
Proof.
  intros Hq Hinv Hp Hstep.
  pose proof (lookup_lt_Some _ _ _ Hp) as Hlt.
  assert (thread_returns p) as Hret.
  { destruct Hq as [_ _ _ Ha]. by eapply Forall_lookup_1 in Ha. }
  destruct p as [| |ip sc res|cells ip sc res| |e]; simpl in Hstep.
  - (* the emptiness test *)
    destruct (work_queue s) as [|d rest] eqn:Hqueue; injection Hstep as <-.
    + destruct Hinv as [Ht Hf Hx Hd Hpr].
      split; simpl; rewrite ?Hqueue.
      * by rewrite length_insert.
      * by rewrite Hqueue in Hf.
      * done.
      * intros Hdone. specialize (Hd Hdone). rewrite forallb_forall in Hd.
        assert (In AtCheck (threads s)) as Hin
          by (apply list_elem_of_In; by eapply list_elem_of_lookup_2).
        by apply Hd in Hin.
      * unfold in_flight in *. rewrite in_flight_length in *. simpl.
        pose proof (sum_list_update (λ p, length (pending p)) _ i _ Exited Hp).
        pose proof (sum_list_update pbar_due _ i _ Exited Hp).
        simpl in *. lia.
    + same_step.
  - (* the blocking get *)
    destruct (work_queue s) as [|ip rest] eqn:Hqueue; [done|].
    injection Hstep as <-. destruct Hinv as [Ht Hf Hx Hd Hpr].
    split; simpl.
    + by rewrite length_insert.
    + destruct Hf as [taken ->]. exists (taken ++ [ip]).
      by rewrite Hqueue, <- app_assoc.
    + intros [j Hj]. destruct (decide (i = j)) as [<-|Hij].
      * by rewrite list_lookup_insert_eq in Hj by done.
      * rewrite list_lookup_insert_ne in Hj by done.
        assert (work_queue s = []) by (apply Hx; by exists j). congruence.
    + intros Hdone. specialize (Hd Hdone). rewrite forallb_forall in Hd.
      assert (In AtGet (threads s)) as Hin
        by (apply list_elem_of_In; by eapply list_elem_of_lookup_2).
      by apply Hd in Hin.
    + unfold in_flight in *. rewrite in_flight_length in *. simpl.
      pose proof (sum_list_update (λ p, length (pending p)) _ i _
                    (Running ip (script ip)
                       (iteration_result ConnectHandler usr pwd enable ip)) Hp)
        as H1.
      pose proof (sum_list_update pbar_due _ i _
                    (Running ip (script ip)
                       (iteration_result ConnectHandler usr pwd enable ip)) Hp)
        as H2.
      simpl in H1, H2.
      rewrite length_replicate, (one_task_done ConnectHandler usr pwd enable)
        in H1.
      rewrite (one_pbar ConnectHandler usr pwd enable) in H2. lia.
  - (* the iteration *)
    simpl in Hret. subst res.
    destruct sc as [|ev sc].
    { injection Hstep as <-. same_step. }
    destruct ev; try (injection Hstep as <-; same_step).
    + destruct (lock s); [done|]. injection Hstep as <-. same_step.
    + (* task_done *)
      destruct (unfinished_tasks s) as [|n] eqn:Hu.
      { by eapply pending_nonempty_counter in Hq. }
      injection Hstep as <-. destruct Hinv as [Ht Hf Hx Hd Hpr].
      split; simpl.
      * by rewrite length_insert.
      * done.
      * intros [j Hj]. apply Hx. destruct (decide (i = j)) as [<-|Hij].
        -- by rewrite list_lookup_insert_eq in Hj by done.
        -- rewrite list_lookup_insert_ne in Hj by done. by exists j.
      * intros Hdone. specialize (Hd Hdone). rewrite forallb_forall in Hd.
        assert (In (Running ip (EvTaskDone :: sc) (inr ())) (threads s)) as Hin
          by (apply list_elem_of_In; by eapply list_elem_of_lookup_2).
        by apply Hd in Hin.
      * unfold in_flight in *. rewrite in_flight_length in *.
        rewrite length_app. simpl.
        pose proof (sum_list_update (λ p, length (pending p)) _ i _
                      (Running ip sc (inr ())) Hp) as H1.
        pose proof (sum_list_update pbar_due _ i _
                      (Running ip sc (inr ())) Hp) as H2.
        simpl in H1, H2. rewrite !length_replicate in H1. lia.
    + (* the progress bar *)
      injection Hstep as <-. destruct Hinv as [Ht Hf Hx Hd Hpr].
      split; simpl.
      * by rewrite length_insert.
      * done.
      * intros [j Hj]. apply Hx. destruct (decide (i = j)) as [<-|Hij].
        -- by rewrite list_lookup_insert_eq in Hj by done.
        -- rewrite list_lookup_insert_ne in Hj by done. by exists j.
      * intros Hdone. specialize (Hd Hdone). rewrite forallb_forall in Hd.
        assert (In (Running ip (EvPbar :: sc) (inr ())) (threads s)) as Hin
          by (apply list_elem_of_In; by eapply list_elem_of_lookup_2).
        by apply Hd in Hin.
      * unfold in_flight in *. rewrite in_flight_length in *. simpl.
        pose proof (sum_list_update (λ p, length (pending p)) _ i _
                      (Running ip sc (inr ())) Hp) as H1.
        pose proof (sum_list_update pbar_due _ i _
                      (Running ip sc (inr ())) Hp) as H2.
        simpl in H1, H2. rewrite !length_replicate in H1. lia.
  - (* inside writerow *)
    destruct cells; injection Hstep as <-; same_step.
  - done.
  - done.
Qed.

Lemma pool_inv_step devices a s s' :
  queue_inv devices s → pool_inv devices s → step a s = Some s' →
  pool_inv devices s'.
Proof.
  intros Hq Hinv Hstep. destruct a as [|i]; simpl in Hstep.
  - unfold main_step in Hstep. destruct Hinv as [Ht Hf Hx Hd Hpr].
    destruct (main_thread s) eqn:Hm; [| |done].
    + destruct (unfinished_tasks s); [|done]. injection Hstep as <-.
      split; simpl; done.
    + destruct (forallb terminated (threads s)) eqn:Hall; [|done].
      injection Hstep as <-. split; simpl; done.
  - destruct (threads s !! i) as [p|] eqn:Hp; [|done].
    by eapply pool_inv_worker_step.
Qed.

Lemma pool_inv_init devices : pool_inv devices (main_init devices).
Proof.
  assert (∀ n, concat (map pending (replicate n AtCheck)) = [] ∧
               sum_list (map pbar_due (replicate n AtCheck)) = 0) as Hrep.
  { induction n as [|n IH]; [done | exact IH]. }
  split.
  - apply length_replicate.
  - by exists [].
  - intros [j Hj]. by apply lookup_replicate in Hj as [? _].
  - done.
  - unfold in_flight, main_init. cbn [threads done_log pbar].
    by destruct (Hrep (NUM_THREADS `min` length devices)) as [-> ->].
Qed.

Lemma pool_inv_run devices sched s :
  run sched (main_init devices) = Some s →
  queue_inv devices s ∧ pool_inv devices s.
Proof.
  assert (∀ s0, queue_inv devices s0 → pool_inv devices s0 →
            run sched s0 = Some s → queue_inv devices s ∧ pool_inv devices s)
    as Hgen.
  { induction sched as [|a sched IH]; intros s0 Hq Hinv Hrun; simpl in Hrun.
    - by injection Hrun as <-.
    - destruct (step a s0) as [s1|] eqn:Hstep; [|done].
      eapply IH; [| |exact Hrun].
      + by eapply queue_inv_step.
      + by eapply pool_inv_step. }
  apply Hgen; [apply queue_inv_init | apply pool_inv_init].
Qed.
End PoolInvariantSteps.

Lemma owed_update q (l : list pc) i p :
  l !! i = Some p →
  concat (map (owed_by q) l) =
    concat (map (owed_by q) (take i l)) ++ owed_by q p
      ++ concat (map (owed_by q) (drop (S i) l)) ∧
  ∀ q' p', concat (map (owed_by q') (<[i:=p']> l)) =
    concat (map (owed_by q') (take i l)) ++ owed_by q' p'
      ++ concat (map (owed_by q') (drop (S i) l)).
Proof.
  intros Hi. pose proof (lookup_lt_Some _ _ _ Hi) as Hlt. split.
  - rewrite <- (take_drop_middle l i p Hi) at 1.
    by rewrite map_app, concat_app.
  - intros q' p'. rewrite insert_take_drop by done.
    by rewrite map_app, concat_app.
Qed.

Lemma owed_by_quiet q q' (l : list pc) :
  Forall (λ p, ¬ is_writing p) l →
  concat (map (owed_by q) l) = concat (map (owed_by q') l).
Proof.
  induction 1 as [|p l Hp _ IH]; [done|]. simpl. rewrite IH.
  by destruct p.
Qed.

Lemma others_quiet (l : list pc) i :
  (∀ j p, l !! j = Some p → is_writing p → j = i) →
  Forall (λ p, ¬ is_writing p) (take i l) ∧
  Forall (λ p, ¬ is_writing p) (drop (S i) l).
Proof.
  intros Hx. split; apply Forall_lookup; intros j p Hj Hw.
  - apply lookup_take_Some in Hj as [Hj Hlt].
    specialize (Hx j p Hj Hw). lia.
  - rewrite lookup_drop in Hj. specialize (Hx _ p Hj Hw). lia.
Qed.

Section RowsInvariant.
Variable ConnectHandler : base_device → session.
Variables (usr pwd enable : string).

Abbreviation script := (iteration_script ConnectHandler usr pwd enable).
Abbreviation step := (step ConnectHandler usr pwd enable).
Abbreviation worker_step := (worker_step ConnectHandler usr pwd enable).
Abbreviation run := (run ConnectHandler usr pwd enable).
Abbreviation owed := (owed_lines ConnectHandler usr pwd enable).
Abbreviation every_line := (all_lines ConnectHandler usr pwd enable).
Abbreviation lines_of := (device_lines ConnectHandler usr pwd enable).

Ltac quiet :=
  eapply sink_inv_quiet;
    [ eassumption | eassumption | | | simpl; reflexivity | reflexivity
    | reflexivity ];
    simpl; tauto.

(** The sink invariant with the new lines and cells spelled out. *)
Lemma sink_inv_next s s' i p lines partial :
  sink_inv s lines partial → threads s !! i = Some p →
  worker_step i p s = Some s' →
  sink_inv s' (next_lines lines partial p) (next_partial partial p).
Proof.
  intros Hinv Hp Hstep.
  pose proof (lookup_lt_Some _ _ _ Hp) as Hlt.
  destruct p as [| |ip sc res|cells ip sc res| |e]; simpl in Hstep.
  - destruct (work_queue s); injection Hstep as <-; simpl; quiet.
  - destruct (work_queue s) as [|ip rest]; [done|]. injection Hstep as <-.
    simpl. quiet.
  - destruct sc as [|ev sc].
    { destruct res; injection Hstep as <-; simpl; quiet. }
    destruct ev; try (injection Hstep as <-; simpl; quiet).
    + destruct (lock s) eqn:Hlock; [done|]. injection Hstep as <-.
      destruct Hinv as [Hf Hl Hpart Hx]. rewrite Hlock in Hpart. subst partial.
      split; simpl; try done.
      * exists (csv_cells r), ip, sc, res, r.
        by rewrite list_lookup_insert_eq by done.
      * intros j q Hj Hq. destruct (decide (i = j)) as [<-|Hne]; [done|].
        rewrite list_lookup_insert_ne in Hj by done.
        specialize (Hx j q Hj Hq). congruence.
    + destruct (unfinished_tasks s); injection Hstep as <-; simpl; quiet.
  - destruct Hinv as [Hf Hl Hpart Hx].
    pose proof (Hx i _ Hp I) as Hlock. rewrite Hlock in Hpart.
    destruct Hpart as (cells' & ip' & sc' & res' & r & Hi & Hr).
    rewrite Hp in Hi. injection Hi as <- <- <- <-.
    destruct cells as [|c cells]; injection Hstep as <-.
    + rewrite app_nil_r in Hr. subst partial. split; simpl.
      * rewrite Hf. simpl. rewrite map_app, concat_app. simpl.
        unfold csv_line. rewrite !app_nil_r, <- !app_assoc. done.
      * apply Forall_app. split; [done|]. apply Forall_singleton. by exists r.
      * done.
      * intros j q Hj Hq. destruct (decide (i = j)) as [<-|Hne].
        -- rewrite list_lookup_insert_eq in Hj by done.
           injection Hj as <-. done.
        -- rewrite list_lookup_insert_ne in Hj by done.
           specialize (Hx j q Hj Hq). congruence.
    + split; simpl.
      * rewrite Hf. simpl. rewrite map_app, <- !app_assoc. done.
      * done.
      * rewrite Hlock. exists cells, ip, sc, res, r.
        rewrite list_lookup_insert_eq by done. by rewrite <- app_assoc.
      * intros j q Hj Hq. destruct (decide (i = j)) as [<-|Hne]; [done|].
        rewrite list_lookup_insert_ne in Hj by done. by eapply Hx.
  - done.
  - done.
Qed.

Lemma owed_change s s' i p p' lines partial lines' partial' :
  threads s !! i = Some p → threads s' = <[i:=p']> (threads s) →
  (partial' = partial ∨
   ∀ j q, threads s !! j = Some q → is_writing q → j = i) →
  lines' ++ owed_by partial' p' ++ every_line (work_queue s')
    ≡ₚ lines ++ owed_by partial p ++ every_line (work_queue s) →
  lines' ++ owed partial' s' ≡ₚ lines ++ owed partial s.
Proof.
  intros Hp Hth Hq Hperm. unfold owed_lines. rewrite Hth.
  destruct (owed_update partial _ _ _ Hp) as [-> Hnew]. rewrite Hnew.
  assert (concat (map (owed_by partial') (take i (threads s))) =
            concat (map (owed_by partial) (take i (threads s))) ∧
          concat (map (owed_by partial') (drop (S i) (threads s))) =
            concat (map (owed_by partial) (drop (S i) (threads s))))
    as [-> ->].
  { destruct Hq as [->|Hx]; [done|].
    destruct (others_quiet _ _ Hx) as [Ha Hb].
    split; by apply owed_by_quiet. }
  set (A := concat (map (owed_by partial) (take i (threads s)))).
  set (B := concat (map (owed_by partial) (drop (S i) (threads s)))).
  transitivity
    (A ++ B ++ (lines' ++ owed_by partial' p' ++ every_line (work_queue s')));
    [solve_Permutation|].
  rewrite Hperm. solve_Permutation.
Qed.

Lemma owed_step devices s s' i p lines partial :
  queue_inv devices s → sink_inv s lines partial →
  threads s !! i = Some p → worker_step i p s = Some s' →
  next_lines lines partial p ++ owed (next_partial partial p) s'
    ≡ₚ lines ++ owed partial s.
Proof.
  intros Hq Hinv Hp Hstep.
  destruct p as [| |ip sc res|cells ip sc res| |e]; simpl in Hstep.
  - destruct (work_queue s) eqn:Hqueue; injection Hstep as <-;
      (eapply owed_change; [exact Hp | simpl; reflexivity | by left |]);
      simpl; by rewrite Hqueue.
  - destruct (work_queue s) as [|ip rest] eqn:Hqueue; [done|].
    injection Hstep as <-.
    eapply owed_change; [exact Hp | simpl; reflexivity | by left |].
    simpl. rewrite Hqueue. unfold all_lines. simpl. solve_Permutation.
  - destruct sc as [|ev sc].
    { destruct res; injection Hstep as <-;
        (eapply owed_change; [exact Hp | simpl; reflexivity | by left |]);
        done. }
    destruct ev;
      try (injection Hstep as <-;
           (eapply owed_change; [exact Hp | simpl; reflexivity | by left |]);
           done).
    + destruct (lock s) eqn:Hlock; [done|]. injection Hstep as <-.
      destruct Hinv as [_ _ Hpart _]. rewrite Hlock in Hpart. subst partial.
      eapply owed_change; [exact Hp | simpl; reflexivity | by left |]. done.
    + destruct (unfinished_tasks s) eqn:Hu.
      { by eapply pending_nonempty_counter in Hq. }
      injection Hstep as <-.
      eapply owed_change; [exact Hp | simpl; reflexivity | by left |]. done.
  - destruct Hinv as [_ _ Hpart Hx].
    pose proof (Hx i _ Hp I) as Hlock.
    assert (∀ j q, threads s !! j = Some q → is_writing q → j = i) as Hexcl.
    { intros j q Hj Hw. specialize (Hx j q Hj Hw). congruence. }
    destruct cells as [|c cells]; injection Hstep as <-;
      (eapply owed_change; [exact Hp | simpl; reflexivity | by right |]);
      simpl.
    + rewrite app_nil_r. solve_Permutation.
    + by rewrite <- app_assoc.
  - done.
  - done.
Qed.

Lemma rows_inv_run devices sched s :
  run sched (main_init devices) = Some s →
  ∃ lines partial,
    sink_inv s lines partial ∧ lines ++ owed partial s ≡ₚ every_line devices.
Proof.
  assert (∀ s0 lines partial,
            queue_inv devices s0 → sink_inv s0 lines partial →
            lines ++ owed partial s0 ≡ₚ every_line devices →
            run sched s0 = Some s →
            ∃ lines' partial',
              sink_inv s lines' partial' ∧
              lines' ++ owed partial' s ≡ₚ every_line devices) as Hgen.
  { induction sched as [|a sched IH];
      intros s0 lines partial Hq Hsink Hperm Hrun; simpl in Hrun.
    - injection Hrun as <-. by exists lines, partial.
    - destruct (step a s0) as [s1|] eqn:Hstep; [|done].
      pose proof (queue_inv_step _ _ _ _ _ _ _ _ Hq Hstep) as Hq1.
      destruct a as [|i]; simpl in Hstep.
      + (* the main thread changes nothing the invariant reads *)
        eapply (IH s1 lines partial); [done| | |done].
        * unfold main_step in Hstep. destruct Hsink as [Hf Hl Hp Hx].
          destruct (main_thread s0).
          -- destruct (unfinished_tasks s0); [|done].
             injection Hstep as <-. done.
          -- destruct (forallb _ _); [|done]. injection Hstep as <-. done.
          -- done.
        * unfold main_step in Hstep.
          destruct (main_thread s0).
          -- destruct (unfinished_tasks s0); [|done].
             injection Hstep as <-. done.
          -- destruct (forallb _ _); [|done]. injection Hstep as <-. done.
          -- done.
      + destruct (threads s0 !! i) as [p|] eqn:Hp; [|done].
        eapply (IH s1 (next_lines lines partial p) (next_partial partial p));
          [done| | |done].
        * by eapply sink_inv_next.
        * rewrite <- Hperm. by eapply owed_step. }
  intros Hrun.
  eapply (Hgen _ [] []); [apply queue_inv_init | apply sink_inv_init | | done].
  unfold owed_lines, main_init. cbn [threads work_queue]. rewrite app_nil_l.
  assert (∀ n, concat (map (owed_by []) (replicate n AtCheck)) = []) as ->.
  { induction n as [|n IH]; [done | exact IH]. }
  done.
Qed.
End RowsInvariant.

Lemma step_worker ConnectHandler usr pwd enable i p s :
  threads s !! i = Some p →
  step ConnectHandler usr pwd enable (Worker i) s =
    worker_step ConnectHandler usr pwd enable i p s.
Proof. intros H. unfold step. by rewrite H. Qed.

Lemma forallb_false {A} (f : A → bool) (l : list A) :
  forallb f l = false → ∃ i x, l !! i = Some x ∧ f x = false.
Proof.
  induction l as [|x l IH]; simpl; [done|].
  destruct (f x) eqn:Hx; simpl.
  - intros (i & y & Hi & Hy)%IH. by exists (S i), y.
  - intros _. by exists 0, x.
Qed.

Section Quiescence.
Variable ConnectHandler : base_device → session.
Variables (usr pwd enable : string).

Abbreviation step := (step ConnectHandler usr pwd enable).
Abbreviation worker_step := (worker_step ConnectHandler usr pwd enable).
Abbreviation run := (run ConnectHandler usr pwd enable).
Abbreviation owed := (owed_lines ConnectHandler usr pwd enable).
Abbreviation every_line := (all_lines ConnectHandler usr pwd enable).

(** X12.  Devices leave the queue in the order of the file: at any time
    the queue is a suffix of the device list, the devices taken are those
    in flight or done, and the number of threads stays
    [min(NUM_THREADS, len(devices))]. *)
Theorem devices_taken_in_order devices sched s :
  run sched (main_init devices) = Some s →
  ∃ taken, devices = taken ++ work_queue s ∧
           taken ≡ₚ in_flight s ++ done_log s ∧
           length (threads s) = Nat.min NUM_THREADS (length devices).
Proof.
  intros [[_ Hitems _ _] [Hth [taken Hfifo] _ _ _]]%pool_inv_run.
  exists taken. split; [done|]. split; [|done].
  rewrite Hfifo in Hitems at 1.
  apply (Permutation_app_inv_r (work_queue s)).
  rewrite Hitems. solve_Permutation.
Qed.

(** A thread that cannot move is blocked in [get()] on an empty queue or has
    ended: waiting for the lock is never final, as its holder can move. *)
Lemma stuck_threads s lines partial :
  sink_inv s lines partial →
  (∀ i, step (Worker i) s = None) →
  Forall (λ p, p = AtGet ∧ work_queue s = [] ∨ terminated p = true)
    (threads s).
Proof.
  intros [_ _ Hpart _] Hstuck. apply Forall_lookup. intros i p Hp.
  pose proof (Hstuck i) as Hi. rewrite (step_worker _ _ _ _ _ _ _ Hp) in Hi.
  destruct p as [| |ip sc res|cells ip sc res| |e]; simpl in Hi.
  - by destruct (work_queue s).
  - destruct (work_queue s); [by left | done].
  - destruct sc as [|ev sc]; [by destruct res|].
    destruct ev; try done.
    + destruct (lock s) as [j|] eqn:Hlock; [|done].
      destruct Hpart as (cells & ip' & sc' & res' & r' & Hj & _).
      pose proof (Hstuck j) as Hsj.
      rewrite (step_worker _ _ _ _ _ _ _ Hj) in Hsj. by destruct cells.
    + by destruct (unfinished_tasks s).
  - by destruct cells.
  - by right.
  - by right.
Qed.

(** The state of a drained pool whose workers are all parked. *)
Lemma settled devices sched s :
  run sched (main_init devices) = Some s →
  Forall parked (threads s) → work_queue s = [] →
  unfinished_tasks s = 0 ∧ done_log s ≡ₚ devices ∧
  pbar s = length devices ∧ lock s = None ∧
  ∃ lines, csvfile s = concat (map csv_line (fieldnames :: lines)) ∧
           lines ≡ₚ every_line devices.
Proof.
  intros Hrun Hpark Hqueue.
  destruct (pool_inv_run _ _ _ _ _ _ _ Hrun)
    as [[Hc Hitems _ _] [_ _ _ _ Hprog]].
  destruct (rows_inv_run _ _ _ _ _ _ _ Hrun)
    as (lines & partial & [Hf _ Hpart Hx] & Hperm).
  assert (in_flight s = [] ∧ sum_list (map pbar_due (threads s)) = 0 ∧
          ∀ q, concat (map (owed_by q) (threads s)) = []) as (Hfl & Hdue & Howed).
  { unfold in_flight. clear -Hpark.
    induction Hpark as [|p l [->| ->] _ (IH1 & IH2 & IH3)]; simpl;
      rewrite ?IH1, ?IH2; auto. }
  rewrite Hqueue, Hfl in Hc, Hitems. simpl in Hc, Hitems.
  assert (lock s = None) as Hlock.
  { destruct (lock s) as [i|]; [|done].
    destruct Hpart as (? & ? & ? & ? & ? & Hi & _).
    eapply Forall_lookup_1 in Hpark; [|exact Hi]. by destruct Hpark. }
  rewrite Hlock in Hpart. subst partial.
  split; [done|]. split; [done|]. split.
  { rewrite Hfl, Hdue in Hprog. simpl in Hprog.
    apply Permutation_length in Hitems. lia. }
  split; [done|]. exists lines. split; [by rewrite app_nil_r in Hf|].
  unfold owed_lines in Hperm. rewrite Howed, Hqueue in Hperm.
  by rewrite !app_nil_r in Hperm.
Qed.

(** X13.  When the pool can no longer move, either [main] is done and
    every worker has left its loop, or [main] waits in [thread.join()] and
    some worker is blocked in [work_queue.get()]: nothing else can block
    it for ever, in particular not the lock and not [work_queue.join()].
    In both cases the work is complete: the queue is empty, every device
    is marked done, the progress bar counts every device, the lock is free
    and the file holds the header and the lines of every device, whole. *)
Theorem only_get_can_hang devices sched s :
  run sched (main_init devices) = Some s →
  (∀ a, step a s = None) →
  (main_thread s = MainDone ∧ Forall (λ p, p = Exited) (threads s) ∨
   main_thread s = MainJoinThreads ∧ Forall parked (threads s) ∧
     ∃ i, threads s !! i = Some AtGet) ∧
  work_queue s = [] ∧ unfinished_tasks s = 0 ∧ done_log s ≡ₚ devices ∧
  pbar s = length devices ∧ lock s = None ∧
  ∃ lines, csvfile s = concat (map csv_line (fieldnames :: lines)) ∧
           lines ≡ₚ every_line devices.
Proof.
  intros Hrun Hstuck.
  destruct (pool_inv_run _ _ _ _ _ _ _ Hrun)
    as [[Hc Hitems Hjoin Halive] [Hth [taken Hfifo] Hex Hdone _]].
  destruct (rows_inv_run _ _ _ _ _ _ _ Hrun)
    as (lines & partial & Hsink & _).
  pose proof (stuck_threads s lines partial Hsink
                (λ i, Hstuck (Worker i))) as Hst.
  assert (Forall (λ p, p = AtGet ∧ work_queue s = [] ∨ p = Exited)
            (threads s)) as Hst'.
  { apply Forall_lookup. intros i p Hp.
    pose proof (Forall_lookup_1 _ _ _ _ Hst Hp) as [?|Ht]; [by left|].
    pose proof (Forall_lookup_1 _ _ _ _ Halive Hp) as Hret.
    destruct p; try done. by right. }
  assert (Forall parked (threads s)) as Hpark.
  { eapply Forall_impl; [exact Hst'|]. intros p [[-> _]| ->];
      [by left | by right]. }
  assert (work_queue s = []) as Hqueue.
  { destruct (threads s) as [|p l] eqn:Hl.
    - simpl in Hth. unfold NUM_THREADS in Hth.
      destruct devices; [|simpl in Hth; lia].
      symmetry in Hfifo. by apply app_eq_nil in Hfifo as [_ ?].
    - apply Forall_cons in Hst' as [[[_ ?]| ->] _]; [done|].
      apply Hex. by exists 0. }
  split; [|split; [done|]; by eapply settled].
  pose proof (Hstuck Main) as Hm. simpl in Hm. unfold main_step in Hm.
  destruct (settled _ _ _ Hrun Hpark Hqueue) as (Hu & _).
  destruct (main_thread s) eqn:Hmain.
  - by rewrite Hu in Hm.
  - right. split; [done|]. split; [done|].
    destruct (forallb terminated (threads s)) eqn:Hall; [done|].
    apply forallb_false in Hall as (i & p & Hi & Hnt).
    exists i. pose proof (Forall_lookup_1 _ _ _ _ Hpark Hi) as [->| ->];
      [done | discriminate Hnt].
  - left. split; [done|]. specialize (Hdone eq_refl).
    rewrite forallb_forall in Hdone.
    apply Forall_lookup. intros i p Hp.
    pose proof (Forall_lookup_1 _ _ _ _ Hpark Hp) as [->| ->]; [|done].
    assert (In AtGet (threads s)) as Hin
      by (apply list_elem_of_In; by eapply list_elem_of_lookup_2).
    by apply Hdone in Hin.
Qed.
End Quiescence.

Section Completion.
Variable ConnectHandler : base_device → session.
Variables (usr pwd enable : string).

Abbreviation step := (step ConnectHandler usr pwd enable).
Abbreviation worker_step := (worker_step ConnectHandler usr pwd enable).
Abbreviation run := (run ConnectHandler usr pwd enable).
Abbreviation owed := (owed_lines ConnectHandler usr pwd enable).
Abbreviation every_line := (all_lines ConnectHandler usr pwd enable).
Abbreviation lines_of := (device_lines ConnectHandler usr pwd enable).

(** X14.  When [main] has passed both joins every worker has left its
    loop (none crashed or is blocked), the queue is empty, every device is
    marked done once, the progress bar counts every device, and the file
    holds the header followed by the lines of every device, whole, in some
    order. *)
Theorem completed_run devices sched s :
  run sched (main_init devices) = Some s →
  main_thread s = MainDone →
  Forall (λ p, p = Exited) (threads s) ∧
  work_queue s = [] ∧ unfinished_tasks s = 0 ∧ done_log s ≡ₚ devices ∧
  pbar s = length devices ∧ lock s = None ∧
  ∃ lines, csvfile s = concat (map csv_line (fieldnames :: lines)) ∧
           lines ≡ₚ every_line devices.
Proof.
  intros Hrun Hmain.
  destruct (pool_inv_run _ _ _ _ _ _ _ Hrun)
    as [[_ _ _ Halive] [Hth [taken Hfifo] Hex Hdone _]].
  specialize (Hdone Hmain). rewrite forallb_forall in Hdone.
  assert (Forall (λ p, p = Exited) (threads s)) as Hexited.
  { apply Forall_lookup. intros i p Hp.
    pose proof (Forall_lookup_1 _ _ _ _ Halive Hp) as Hret.
    assert (In p (threads s)) as Hin
      by (apply list_elem_of_In; by eapply list_elem_of_lookup_2).
    apply Hdone in Hin. by destruct p. }
  assert (work_queue s = []) as Hqueue.
  { destruct (threads s) as [|p l] eqn:Hl.
    - simpl in Hth. unfold NUM_THREADS in Hth.
      destruct devices; [|simpl in Hth; lia].
      symmetry in Hfifo. by apply app_eq_nil in Hfifo as [_ ?].
    - apply Forall_cons in Hexited as [-> _]. apply Hex. by exists 0. }
  split; [done|]. split; [done|].
  eapply settled; [exact Hrun | | done].
  eapply Forall_impl; [exact Hexited|]. intros p ->. by right.
Qed.

(** X15.  No line is lost or written twice: at any time the whole lines
    of the file, the line under way completed by the cells its writer still
    holds, the lines the threads have still to write and those of the
    queued devices are, together, exactly the lines of all devices. *)
Theorem no_row_lost devices sched s :
  run sched (main_init devices) = Some s →
  ∃ lines partial,
    csvfile s =
      concat (map csv_line (fieldnames :: lines)) ++ map Cell partial ∧
    lines ++ owed partial s ≡ₚ every_line devices ∧
    (lock s = None → partial = []).
Proof.
  intros Hrun.
  destruct (rows_inv_run _ _ _ _ _ _ _ Hrun)
    as (lines & partial & [Hf _ Hpart _] & Hperm).
  exists lines, partial. split; [done|]. split; [done|].
  intros Hlock. by rewrite Hlock in Hpart.
Qed.

(** With one device there is one worker, and it is the only one to touch
    the file: what is written and what is due make up the whole output. *)
Lemma single_worker_step d target s s' p :
  queue_inv [d] s → threads s = [p] →
  (p = AtGet → work_queue s ≠ []) →
  csvfile s ++ tokens_due p ++ concat (map csv_line (every_line (work_queue s)))
    = target →
  worker_step 0 p s = Some s' →
  ∃ p', threads s' = [p'] ∧ (p' = AtGet → work_queue s' ≠ []) ∧
    csvfile s' ++ tokens_due p'
      ++ concat (map csv_line (every_line (work_queue s')))
      = target.
Proof.
  intros Hq Hth Hget Hfile Hstep.
  assert (threads s !! 0 = Some p) as Hp by (by rewrite Hth).
  destruct p as [| |ip sc res|cells ip sc res| |e]; simpl in Hstep.
  - destruct (work_queue s) eqn:Hqueue; injection Hstep as <-; simpl;
      rewrite Hth; simpl; eexists; (split; [reflexivity|]);
      rewrite ?Hqueue; split; done.
  - destruct (work_queue s) as [|ip rest] eqn:Hqueue; [done|].
    injection Hstep as <-. simpl. rewrite Hth. simpl.
    eexists. split; [reflexivity|]. split; [done|].
    rewrite <- Hfile. simpl. unfold all_lines. simpl.
    by rewrite map_app, concat_app.
  - destruct sc as [|ev sc].
    { destruct res; injection Hstep as <-; simpl; rewrite Hth; simpl;
        eexists; (split; [reflexivity|]); split; done. }
    destruct ev;
      try (injection Hstep as <-; simpl; rewrite Hth; simpl;
           eexists; (split; [reflexivity|]); split; done).
    + destruct (lock s); [done|]. injection Hstep as <-. simpl.
      rewrite Hth. simpl. eexists. split; [reflexivity|]. split; [done|].
      rewrite <- Hfile. simpl. by rewrite <- ?app_assoc.
    + destruct (unfinished_tasks s) eqn:Hu.
      { by eapply pending_nonempty_counter in Hq. }
      injection Hstep as <-. simpl. rewrite Hth. simpl.
      eexists. split; [reflexivity|]. split; done.
  - destruct cells as [|c cells]; injection Hstep as <-; simpl;
      rewrite Hth; simpl; eexists; (split; [reflexivity|]);
      (split; [done|]); rewrite <- Hfile; simpl;
      unfold csv_line; simpl; by rewrite <- ?app_assoc.
  - done.
  - done.
Qed.

Lemma single_worker_run d sched s :
  run sched (main_init [d]) = Some s →
  ∃ p, threads s = [p] ∧ (p = AtGet → work_queue s ≠ []) ∧
    csvfile s ++ tokens_due p
      ++ concat (map csv_line (every_line (work_queue s)))
      = csv_line fieldnames ++ concat (map csv_line (lines_of d)).
Proof.
  remember (csv_line fieldnames ++ concat (map csv_line (lines_of d)))
    as target eqn:Htarget.
  assert (∀ s0 p0, queue_inv [d] s0 → threads s0 = [p0] →
            (p0 = AtGet → work_queue s0 ≠ []) →
            csvfile s0 ++ tokens_due p0
              ++ concat (map csv_line (every_line (work_queue s0)))
              = target →
            run sched s0 = Some s →
            ∃ p, threads s = [p] ∧ (p = AtGet → work_queue s ≠ []) ∧
              csvfile s ++ tokens_due p
                ++ concat (map csv_line (every_line (work_queue s)))
                = target)
    as Hgen.
  { clear Htarget.
    induction sched as [|a sched IH]; intros s0 p0 Hq Hth Hget Hfile Hrun;
      simpl in Hrun.
    - injection Hrun as <-. by exists p0.
    - destruct (step a s0) as [s1|] eqn:Hstep; [|done].
      pose proof (queue_inv_step _ _ _ _ _ _ _ _ Hq Hstep) as Hq1.
      destruct a as [|i].
      + simpl in Hstep. unfold main_step in Hstep.
        eapply (IH s1 p0); [done| | | |done];
          (destruct (main_thread s0);
           [ destruct (unfinished_tasks s0); [|done]
           | destruct (forallb _ _); [|done]
           | done ]);
          injection Hstep as <-; done.
      + destruct i as [|i].
        * rewrite (step_worker _ _ _ _ 0 p0) in Hstep by (by rewrite Hth).
          destruct (single_worker_step d target s0 s1 p0 Hq Hth Hget Hfile
                      Hstep) as (p1 & Hth1 & Hget1 & Hfile1).
          by eapply (IH s1 p1).
        * simpl in Hstep. rewrite Hth in Hstep. done. }
  intros Hrun. eapply (Hgen _ AtCheck); [apply queue_inv_init | | | | done].
  - reflexivity.
  - done.
  - subst target. cbn [main_init csvfile tokens_due work_queue app].
    unfold all_lines. cbn [map concat]. by rewrite !app_nil_r.
Qed.

(** X16.  With a single device there is one worker and the pool cannot
    hang: when nobody can move, [main] is done, the worker has left, and
    the file is the header followed by the rows of the device in order. *)
Theorem single_device_completes d sched s :
  run sched (main_init [d]) = Some s →
  (∀ a, step a s = None) →
  main_thread s = MainDone ∧ threads s = [Exited] ∧
  csvfile s = csv_line fieldnames ++ concat (map csv_line (lines_of d)) ∧
  pbar s = 1 ∧ done_log s = [d].
Proof.
  intros Hrun Hstuck.
  destruct (single_worker_run d sched s Hrun) as (p & Hth & Hget & Hfile).
  destruct (pool_inv_run _ _ _ _ _ _ _ Hrun)
    as [[Hc Hitems Hjoin Halive] [_ _ Hex Hdone Hprog]].
  destruct (rows_inv_run _ _ _ _ _ _ _ Hrun)
    as (lines & partial & Hsink & _).
  pose proof (stuck_threads _ _ _ _ s lines partial Hsink
                (λ i, Hstuck (Worker i))) as Hst.
  rewrite Hth in Hst, Halive.
  apply Forall_inv in Hst. apply Forall_inv in Halive.
  assert (p = Exited) as ->.
  { destruct Hst as [[-> Hqueue]|Ht]; [by destruct (Hget eq_refl)|].
    by destruct p. }
  assert (work_queue s = []) as Hqueue.
  { apply Hex. exists 0. by rewrite Hth. }
  assert (Forall parked (threads s)) as Hpark.
  { rewrite Hth. apply Forall_singleton. by right. }
  destruct (settled _ _ _ _ _ _ _ Hrun Hpark Hqueue)
    as (Hu & Hdl & Hpb & _).
  pose proof (Hstuck Main) as Hm. simpl in Hm. unfold main_step in Hm.
  rewrite Hu, Hth in Hm. simpl in Hm.
  split; [by destruct (main_thread s)|]. split; [done|].
  rewrite Hqueue in Hfile. simpl in Hfile. rewrite !app_nil_r in Hfile.
  split; [done|]. split; [done|].
  by apply Permutation_singleton_r in Hdl.
Qed.
End Completion.

(** ** The further properties at the devices of the scenarios *)

Module EstateFacts.
Import Estate.

Abbreviation sess := (the_session provider "admin" "pw" "en").
Abbreviation ios := (
  {[ "version" := "show version";
     "interfaces" := "show ip interface brief";
     "cdp" := "show cdp neighbors detail" ]} : gmap string string).
Abbreviation sends :=
  [EvSend "show version"; EvSend "show ip interface brief";
   EvSend "show cdp neighbors detail"].


(** X2, witness: [asa_rows_have_no_neighbor] at the firewall 10.0.1.1. *)
Lemma asa_rows_have_no_neighbor_witness :
  connect (sess "10.0.1.1") = inr "cisco_asa" ∧
  let r := default ∅ (rows "10.0.1.1" !! 0) in
  r ∈ rows "10.0.1.1" ∧ is_Some (r !! "interface") ∧
  neighbor_blank r ∧
  drop 9 (csv_cells r) = [EmptyString; EmptyString; EmptyString].
Proof.
  split; [reflexivity|]. cbv zeta.
  assert (default ∅ (rows "10.0.1.1" !! 0) ∈ rows "10.0.1.1") as Hin.
  { apply (list_elem_of_lookup_2 _ 0). reflexivity. }
  assert (is_Some (default ∅ (rows "10.0.1.1" !! 0) !! "interface")) as Hif.
  { eexists. reflexivity. }
  split; [exact Hin|]. split; [exact Hif|].
  destruct (asa_rows_have_no_neighbor provider "admin" "pw" "en" "10.0.1.1"
              eq_refl) as [_ H].
  exact (H _ Hin Hif).
Defined.

(** X4, witness: [prompt_is_always_read] at the device 10.0.0.1, whose
    version record has a hostname. *)
Lemma prompt_is_always_read_witness :
  Scenario.version_record !! "hostname" = Some "sw1" ∧
  connect (sess "10.0.0.1") = inr "cisco_ios" ∧
  COMMAND_MAP !! "cisco_ios" = Some ios ∧
  fetch (sess "10.0.0.1") ios [] =
    (inr ([Scenario.version_record], [Scenario.gi1; Scenario.gi2],
          [Scenario.neighbor]), sends) ∧
  EvPrompt ∈ script "10.0.0.1".
Proof.
  do 4 (split; [reflexivity|]).
  destruct (prompt_is_always_read provider "admin" "pw" "en" "10.0.0.1"
              "cisco_ios" ios Scenario.version_record []
              [Scenario.gi1; Scenario.gi2] [Scenario.neighbor] sends
              eq_refl eq_refl eq_refl) as [H _].
  exact H.
Defined.


(** X6, witness: [interface_rows_in_order] at the second interface of the
    device 10.0.0.1. *)
Lemma interface_rows_in_order_witness :
  connect (sess "10.0.0.1") = inr "cisco_ios" ∧
  COMMAND_MAP !! "cisco_ios" = Some ios ∧
  fetch (sess "10.0.0.1") ios [] =
    (inr ([Scenario.version_record], [Scenario.gi1; Scenario.gi2],
          [Scenario.neighbor]), sends) ∧
  find_prompt (sess "10.0.0.1") = inr "sw1#" ∧
  ∃ r, rows "10.0.0.1" !! 1 = Some r ∧
       r !! "interface" = Some (Some "GigabitEthernet0/2").
Proof.
  do 4 (split; [reflexivity|]).
  assert (Forall neighbor_complete [Scenario.neighbor]) as Hall.
  { apply Forall_singleton.
    repeat (apply Forall_cons; split; [eexists; reflexivity|]).
    apply Forall_nil_2. }
  destruct (interface_rows_in_order provider "admin" "pw" "en" "10.0.0.1"
              "cisco_ios" ios Scenario.version_record []
              [Scenario.gi1; Scenario.gi2] [Scenario.neighbor] sends "sw1#"
              1 Scenario.gi2 eq_refl eq_refl eq_refl eq_refl Hall eq_refl)
    as (r & Hr & Hi & _).
  exists r. split; [exact Hr | exact Hi].
Defined.

(** X7, witness: [summary_row_placeholders] at the device 10.0.1.2, which
    has no interface and whose name is taken from the prompt. *)
Lemma summary_row_placeholders_witness :
  connect (sess "10.0.1.2") = inr "cisco_nxos" ∧
  COMMAND_MAP !! "cisco_nxos" = Some ios ∧
  fetch (sess "10.0.1.2") ios [] = (inr ([bare_version], [], []), sends) ∧
  find_prompt (sess "10.0.1.2") = inr " core1# " ∧
  map csv_cells (rows "10.0.1.2") =
    [["core1"; "10.0.1.2"; "N9K-C93180YC"; "9.3(8)"; "OK";
      "N/A"; "N/A"; "N/A"; "N/A"; "N/A"; "N/A"; "N/A"]].
Proof.
  do 4 (split; [reflexivity|]).
  exact (summary_row_placeholders provider "admin" "pw" "en" "10.0.1.2"
           "cisco_nxos" ios bare_version [] [] sends " core1# "
           eq_refl eq_refl eq_refl eq_refl (Forall_nil_2 _)).
Defined.

(** X11, witness: [runs_are_bounded] at the fair schedule. *)
Lemma runs_are_bounded_witness :
  ∃ s, go ["10.0.1.1"; "10.0.1.2"] fair_schedule = Some s ∧
    (length fair_schedule ≤
       2 + 2 * Nat.min NUM_THREADS 2
         + sum_list (map (device_steps provider "admin" "pw" "en")
                       ["10.0.1.1"; "10.0.1.2"]))%nat.
Proof.
  assert (∃ s, go ["10.0.1.1"; "10.0.1.2"] fair_schedule = Some s)
    as [s Hrun] by (eexists; vm_compute; reflexivity).
  exists s. split; [exact Hrun|].
  exact (runs_are_bounded provider "admin" "pw" "en"
           ["10.0.1.1"; "10.0.1.2"] fair_schedule s Hrun).
Defined.

(** X12, witness: [devices_taken_in_order] after worker 0 has popped the
    first device. *)
Lemma devices_taken_in_order_witness :
  ∃ s, go ["10.0.1.1"; "10.0.1.2"] [Worker 0; Worker 0] = Some s ∧
    ∃ taken, ["10.0.1.1"; "10.0.1.2"] = taken ++ work_queue s ∧
             taken ≡ₚ in_flight s ++ done_log s.
Proof.
  assert (∃ s, go ["10.0.1.1"; "10.0.1.2"] [Worker 0; Worker 0] = Some s)
    as [s Hrun] by (eexists; vm_compute; reflexivity).
  exists s. split; [exact Hrun|].
  destruct (devices_taken_in_order provider "admin" "pw" "en"
              ["10.0.1.1"; "10.0.1.2"] [Worker 0; Worker 0] s Hrun)
    as (taken & H1 & H2 & _).
  exists taken. split; [exact H1 | exact H2].
Defined.

(** X13, witness: [only_get_can_hang] at the state the first scenario
    ends in, with worker 1 blocked in [get()]. *)
Lemma only_get_can_hang_witness :
  ∃ s, Scenario.go Scenario.schedule = Some s ∧
    (∀ a, step Scenario.provider "admin" "pw" "en" a s = None) ∧
    main_thread s = MainJoinThreads ∧
    ∃ lines, csvfile s = concat (map csv_line (fieldnames :: lines)) ∧
      lines ≡ₚ all_lines Scenario.provider "admin" "pw" "en"
                 Scenario.devices.
Proof.
  eexists. split; [vm_compute; reflexivity|].
  match goal with
  | |- (∀ a, step _ _ _ _ a ?s = None) ∧ _ =>
      assert (Scenario.go Scenario.schedule = Some s) as Hrun
        by (vm_compute; reflexivity);
      assert (∀ a, step Scenario.provider "admin" "pw" "en" a s = None)
        as Hstuck by (intros [|[|[|i]]]; reflexivity)
  end.
  split; [exact Hstuck|]. split; [reflexivity|].
  destruct (only_get_can_hang Scenario.provider "admin" "pw" "en"
              Scenario.devices Scenario.schedule _ Hrun Hstuck)
    as (_ & _ & _ & _ & _ & _ & H).
  exact H.
Defined.

(** X14, witness: [completed_run] at the fair schedule, after which
    [main] is done. *)
Lemma completed_run_witness :
  ∃ s, go ["10.0.1.1"; "10.0.1.2"] fair_schedule = Some s ∧
    main_thread s = MainDone ∧
    threads s = [Exited; Exited] ∧
    done_log s ≡ₚ ["10.0.1.1"; "10.0.1.2"] ∧ pbar s = 2.
Proof.
  eexists. split; [vm_compute; reflexivity|].
  split; [reflexivity|]. split; [reflexivity|].
  match goal with
  | |- done_log ?s ≡ₚ _ ∧ _ =>
      assert (go ["10.0.1.1"; "10.0.1.2"] fair_schedule = Some s) as Hrun
        by (vm_compute; reflexivity)
  end.
  destruct (completed_run provider "admin" "pw" "en"
              ["10.0.1.1"; "10.0.1.2"] fair_schedule _ Hrun eq_refl)
    as (_ & _ & _ & Hdone & Hpbar & _).
  split; [exact Hdone | exact Hpbar].
Defined.

(** X15, witness: [no_row_lost] while worker 0 is in the middle of the
    row of the firewall. *)
Lemma no_row_lost_witness :
  ∃ s, go ["10.0.1.1"; "10.0.1.2"] (replicate 12 (Worker 0)) = Some s ∧
    lock s = Some 0 ∧
    ∃ lines partial,
      csvfile s =
        concat (map csv_line (fieldnames :: lines)) ++ map Cell partial ∧
      lines ++ owed_lines provider "admin" "pw" "en" partial s
        ≡ₚ all_lines provider "admin" "pw" "en" ["10.0.1.1"; "10.0.1.2"].
Proof.
  eexists. split; [vm_compute; reflexivity|]. split; [reflexivity|].
  match goal with
  | |- ∃ lines partial, csvfile ?s = _ ∧ _ =>
      assert (go ["10.0.1.1"; "10.0.1.2"] (replicate 12 (Worker 0)) = Some s)
        as Hrun by (vm_compute; reflexivity)
  end.
  destruct (no_row_lost provider "admin" "pw" "en"
              ["10.0.1.1"; "10.0.1.2"] (replicate 12 (Worker 0)) _ Hrun)
    as (lines & partial & Hf & Hperm & _).
  exists lines, partial. split; [exact Hf | exact Hperm].
Defined.

(** X16, witness: [single_device_completes] at the device 10.0.1.2 alone. *)
Lemma single_device_completes_witness :
  ∃ s, go ["10.0.1.2"] lone_schedule = Some s ∧
    (∀ a, step provider "admin" "pw" "en" a s = None) ∧
    main_thread s = MainDone ∧
    csvfile s =
      csv_line fieldnames
      ++ csv_line ["core1"; "10.0.1.2"; "N9K-C93180YC"; "9.3(8)"; "OK";
                   "N/A"; "N/A"; "N/A"; "N/A"; "N/A"; "N/A"; "N/A"].
Proof.
  eexists. split; [vm_compute; reflexivity|].
  match goal with
  | |- (∀ a, step _ _ _ _ a ?s = None) ∧ _ =>
      assert (go ["10.0.1.2"] lone_schedule = Some s) as Hrun
        by (vm_compute; reflexivity);
      assert (∀ a, step provider "admin" "pw" "en" a s = None)
        as Hstuck by (intros [|[|i]]; reflexivity)
  end.
  split; [exact Hstuck|].
  destruct (single_device_completes provider "admin" "pw" "en"
              "10.0.1.2" lone_schedule _ Hrun Hstuck)
    as (Hmain & _ & Hfile & _).
  split; [exact Hmain|]. rewrite Hfile. vm_compute. reflexivity.
Defined.

End EstateFacts.
